(** * math-expression-tree: the Cons / nil expression tree of [src/tree.ts]

    A shallow embedding of the tree module and of the [Atom] class that the
    test suite uses as its only non-pair node kind.

    Objects.  The slots [#car] and [#cdr] of a [Cons] are private and written
    by the constructor only, and an [Atom] has one read-only [value]; an
    object is therefore the value it was built from together with the address
    it was allocated at.  A handle is modelled as that labelled value, and
    two handles are the same object ([===]) exactly when they are the same
    labelled value.  A slot holding [undefined] is [None].

    Effects.  [new Cons(...)] takes the next free address from an allocation
    counter that is threaded through the functions that construct nodes;
    [throw] is the [Throw] outcome of a [result].

    Numbers.  The index of [item] ranges over the integers; [length] is a
    natural number; [pos] and [end] are optional integers.

    Copies.  [src/tree.ts] holds the module twice.  The definitions below
    are the first copy (lines 1-412), the one with [isNil()]-based emptiness
    and source ranges; the part of the second copy (lines 413-814) that
    decides how the sentinel compares is module [IdentityNil]. *)

From Stdlib Require Import Arith ZArith Bool List String Lia.
Import ListNotations.

Set Warnings "-register-all".

(** ** Outcomes and the allocation monad *)

(** [new Error(message)]; [new Error()] has the empty message. *)
Inductive exn : Type :=
| Error (message : string).

Inductive result (A : Type) : Type :=
| Ok (a : A)
| Throw (e : exn).

Arguments Ok {A} a.
Arguments Throw {A} e.

Definition rbind {A B : Type} (r : result A) (k : A -> result B) : result B :=
  match r with
  | Ok a => k a
  | Throw e => Throw e
  end.

Declare Scope result_scope.
Delimit Scope result_scope with result.
Notation "x <- r ;; k" := (rbind r (fun x => k))
  (at level 61, r at next level, right associativity) : result_scope.

(** The address of the next object to be allocated. *)
Definition alloc : Type := nat.

(** A computation that may allocate and may throw. *)
Definition M (A : Type) : Type := alloc -> result A * alloc.

Definition ret {A : Type} (a : A) : M A := fun s => (Ok a, s).

Definition raise {A : Type} (e : exn) : M A := fun s => (Throw e, s).

Definition bind {A B : Type} (m : M A) (k : A -> M B) : M B :=
  fun s =>
    match m s with
    | (Ok a, s') => k a s'
    | (Throw e, s') => (Throw e, s')
    end.

Definition lift {A : Type} (r : result A) : M A := fun s => (r, s).

Declare Scope alloc_scope.
Delimit Scope alloc_scope with alloc.
Notation "x <-- m ;; k" := (bind m (fun x => k))
  (at level 61, m at next level, right associativity) : alloc_scope.

(** The failures of the module, by the message the source gives them.
    [ShapeError] is the [new Error()] that [cons] throws for a rest that is
    not a [Cons]; the [cdr] getter throws the same for such a slot. *)
Definition ShapeError : exn := Error EmptyString.
Definition IndexError : exn := Error "index out of bounds.".
Definition EmptyListError : exn :=
  Error "tail property is not allowed for the empty list.".

(** ** Expression handles *)

Inductive U : Type :=
| Atom (ref : alloc) (value : string)
| Cons (ref : alloc) (car cdr : option U) (pos end_ : option Z).

Definition optZ_eqb (a b : option Z) : bool :=
  match a, b with
  | Some x, Some y => Z.eqb x y
  | None, None => true
  | _, _ => false
  end.

(** [a === b]. *)
Fixpoint same (a b : U) {struct a} : bool :=
  match a, b with
  | Atom r v, Atom r' v' => Nat.eqb r r' && String.eqb v v'
  | Cons r x d p e, Cons r' x' d' p' e' =>
      Nat.eqb r r'
      && match x, x' with
         | Some u, Some u' => same u u'
         | None, None => true
         | _, _ => false
         end
      && match d, d' with
         | Some u, Some u' => same u u'
         | None, None => true
         | _, _ => false
         end
      && optZ_eqb p p' && optZ_eqb e e'
  | _, _ => false
  end.

(** [expr instanceof Cons], [expr instanceof Atom]. *)
Definition instanceof_Cons (expr : U) : bool :=
  match expr with
  | Cons _ _ _ _ _ => true
  | Atom _ _ => false
  end.

Definition instanceof_Atom (expr : U) : bool :=
  match expr with
  | Atom _ _ => true
  | Cons _ _ _ _ _ => false
  end.

(** The private slots; an [Atom] has none. *)
Definition car_slot (this : U) : option U :=
  match this with
  | Cons _ a _ _ _ => a
  | Atom _ _ => None
  end.

Definition cdr_slot (this : U) : option U :=
  match this with
  | Cons _ _ d _ _ => d
  | Atom _ _ => None
  end.

Definition pos (this : U) : option Z :=
  match this with
  | Cons _ _ _ p _ => p
  | Atom _ _ => None
  end.

Definition end_ (this : U) : option Z :=
  match this with
  | Cons _ _ _ _ e => e
  | Atom _ _ => None
  end.

Fixpoint size (u : U) : nat :=
  match u with
  | Atom _ _ => 1
  | Cons _ a d _ _ =>
      S (match a with Some x => size x | None => 0 end
         + match d with Some x => size x | None => 0 end)
  end.

(** [export const nil = new Cons(void 0, void 0, void 0, void 0)], the first
    object the module allocates. *)
Definition nil : U := Cons 0 None None None None.

(** The allocation counter once the module is initialised. *)
Definition initial : alloc := 1.

(** [new Cons(car, cdr, pos, end)]: the constructor stores its arguments and
    checks nothing. *)
Definition new_Cons (car cdr : option U) (p e : option Z) : M U :=
  fun s => (Ok (Cons s car cdr p e), S s).

(** [new Atom(value)]. *)
Definition new_Atom (value : string) : M U :=
  fun s => (Ok (Atom s value), S s).

(** ** The test suite's atom: [class Atom implements U] *)

Definition Atom_equals (this other : U) : bool :=
  if same other this then true
  else
    match this, other with
    | Atom _ v, Atom _ v' => String.eqb v v'
    | _, _ => false
    end.

(** ** Class [Cons]: role predicates and slot getters

    The methods of [Cons] take their receiver as a handle that is a [Cons];
    the methods of the interface [U] ([isCons], [isNil], [equals],
    [contains]) dispatch on the class of the receiver. *)

Definition isCons (this : U) : bool :=
  match this with
  | Atom _ _ => false
  | Cons _ a _ _ _ => match a with Some _ => true | None => false end
  end.

Definition isNil (this : U) : bool :=
  match this with
  | Atom _ _ => false
  | Cons _ a _ _ _ => match a with Some _ => false | None => true end
  end.

Definition name (this : U) : string :=
  match this with
  | Atom _ _ => "Atom"
  | Cons _ a _ _ _ => match a with Some _ => "Cons" | None => "Nil" end
  end.

(** [get car(): U]. *)
Definition Cons_car (this : U) : U :=
  match car_slot this with
  | Some a => a
  | None => nil
  end.

(** [get cdr(): Cons]. *)
Definition Cons_cdr (this : U) : result U :=
  match cdr_slot this with
  | Some d => if instanceof_Cons d then Ok d else Throw ShapeError
  | None => Ok nil
  end.

Definition Cons_argList (this : U) : result U := Cons_cdr this.

Definition Cons_head (this : U) : U := Cons_car this.

Definition Cons_base (this : U) : result U :=
  (argList <- Cons_argList this ;; Ok (Cons_head argList))%result.

Definition Cons_expo (this : U) : result U :=
  (d <- Cons_cdr this ;; dd <- Cons_cdr d ;; Ok (Cons_car dd))%result.

(** ** Free predicates *)

Definition is_nil (expr : U) : bool := isNil expr.

(** [is_cons(expr)] for a defined [expr]; an optional slot is tested for
    [undefined] by its holder before it is passed here. *)
Definition is_cons (expr : U) : bool :=
  if instanceof_Cons expr then negb (isNil expr) else false.

Definition is_atom (expr : U) : bool :=
  if is_cons expr then false
  else if is_nil expr then false
  else true.

(** ** Structural equality

    [equals] and the loop of [equal_cons_cons] call each other, and the loop
    advances through the [cdr] getter, which may hand back [nil] instead of a
    slot: the recursion is on a step budget.  [equals] and [equal_cons_cons]
    below run it with a budget that always suffices ([equals_unfold],
    [equal_cons_cons_unfold]). *)

Definition out_of_fuel : exn := Error "fuel".

Fixpoint equals_fuel (n : nat) (this other : U) {struct n} : result bool :=
  match n with
  | O => Throw out_of_fuel
  | S k =>
      match this with
      | Atom _ _ => Ok (Atom_equals this other)
      | Cons _ _ _ _ _ =>
          if same this other then Ok true
          else if is_cons other then equal_cons_cons_fuel k this other
          else if is_atom other then Ok false
          else if isNil other then Ok (isNil this)
          else Ok false
      end
  end
with equal_cons_cons_fuel (n : nat) (p1 p2 : U) {struct n} : result bool :=
  match n with
  | O => Throw out_of_fuel
  | S k =>
      if is_cons p1 && is_cons p2 then
        (r <- equals_fuel k (Cons_car p1) (Cons_car p2) ;;
         if r : bool then
           p1' <- Cons_cdr p1 ;;
           p2' <- Cons_cdr p2 ;;
           equal_cons_cons_fuel k p1' p2'
         else Ok false)%result
      else if is_cons p1 then Ok false
      else if is_cons p2 then Ok false
      else
        (r <- equals_fuel k p1 p2 ;;
         if r : bool then Ok true else Ok false)%result
  end.

Definition equals (this other : U) : result bool :=
  equals_fuel (2 * size this + 1) this other.

Definition equal_cons_cons (lhs rhs : U) : result bool :=
  equal_cons_cons_fuel (2 * size lhs) lhs rhs.

(** ** Containment *)

Fixpoint contains (this needle : U) {struct this} : result bool :=
  match this with
  | Atom _ _ => Ok (Atom_equals this needle)
  | Cons _ a d _ _ =>
      if same this needle then Ok true
      else
        (r <- equals this needle ;;
         if r : bool then Ok true
         else
           match a, d with
           | Some x, Some y =>
               rx <- contains x needle ;;
               if rx : bool then Ok true else contains y needle
           | _, _ => Ok false
           end)%result
  end.

(** ** Navigation *)

(** [*[Symbol.iterator]()], run to its end as [[...u]] does. *)
Fixpoint iterator_fuel (n : nat) (u : U) {struct n} : result (list U) :=
  match n with
  | O => Throw out_of_fuel
  | S k =>
      if is_cons u then
        (d <- Cons_cdr u ;;
         rest <- iterator_fuel k d ;;
         Ok (Cons_car u :: rest))%result
      else Ok []
  end.

Definition Cons_iterator (this : U) : result (list U) :=
  iterator_fuel (size this) this.

Definition Cons_tail (this : U) : result (list U) :=
  if isNil this then Throw EmptyListError
  else
    match cdr_slot this with
    | Some d => if is_cons d then Cons_iterator d else Ok []
    | None => Ok []
    end.

Fixpoint map_fuel (n : nat) (f : U -> M U) (this : U) {struct n} : M U :=
  match n with
  | O => raise out_of_fuel
  | S k =>
      if isNil this then ret this
      else
        let a := Cons_car this in
        (b <-- lift (Cons_cdr this) ;;
         fa <-- f a ;;
         rest <-- (if is_cons b then map_fuel k f b else ret b) ;;
         new_Cons (Some fa) (Some rest) (pos this) (end_ this))%alloc
  end.

Definition Cons_map (f : U -> M U) (this : U) : M U :=
  map_fuel (size this) f this.

Fixpoint length_fuel (n : nat) (this : U) {struct n} : result nat :=
  match n with
  | O => Throw out_of_fuel
  | S k =>
      if isNil this then Ok 0
      else
        (argList <- Cons_argList this ;;
         if is_cons argList then
           r <- length_fuel k argList ;; Ok (r + 1)
         else Ok 1)%result
  end.

Definition Cons_length (this : U) : result nat :=
  length_fuel (size this) this.

Fixpoint item_fuel (n : nat) (this : U) (index : Z) {struct n} : result U :=
  match n with
  | O => Throw out_of_fuel
  | S k =>
      if (0 <=? index)%Z && negb (isNil this) then
        if (index =? 0)%Z then Ok (Cons_car this)
        else
          (argList <- Cons_argList this ;;
           if is_cons argList then item_fuel k argList (index - 1)
           else Throw IndexError)%result
      else Throw IndexError
  end.

Definition Cons_item (this : U) (index : Z) : result U :=
  item_fuel (size this) this index.

Definition Cons_opr (this : U) : result U := Cons_item this 0.
Definition Cons_arg (this : U) : result U := Cons_item this 1.
Definition Cons_lhs (this : U) : result U := Cons_item this 1.
Definition Cons_rhs (this : U) : result U := Cons_item this 2.

(** ** Free constructors and accessors *)

Definition cons (car cdr : U) (p e : option Z) : M U :=
  if instanceof_Cons cdr then new_Cons (Some car) (Some cdr) p e
  else raise ShapeError.

(** The loop [for (let i = items.length - 1; i >= 0; i--)], with [k = i + 1];
    [items[i]] is [nth_error items i]. *)
Fixpoint items_loop (p e : option Z) (items : list U) (k : nat) (node : U)
  {struct k} : M U :=
  match k with
  | O => ret node
  | S i =>
      (node' <-- new_Cons (nth_error items i) (Some node) p e ;;
       items_loop p e items i node')%alloc
  end.

Definition pos_end_items_to_cons (p e : option Z) (items : list U) : M U :=
  items_loop p e items (List.length items) nil.

Definition items_to_cons (items : list U) : M U :=
  pos_end_items_to_cons None None items.

Definition car (node : U) : U :=
  if is_cons node then Cons_car node else nil.

Definition cdr (node : U) : result U :=
  if is_cons node then Cons_cdr node else Ok nil.

(** ** Vocabulary of the statements *)

(** The nodes that the loop of [pos_end_items_to_cons] allocates around
    [node] when it starts at address [s]: the last item is allocated first. *)
Fixpoint chain (p e : option Z) (s : alloc) (node : U) (items : list U) : U :=
  match items with
  | [] => node
  | x :: rest =>
      Cons (s + List.length rest) (Some x) (Some (chain p e s node rest)) p e
  end.

(** [u.cdr.cdr. ... .cdr], [n] times. *)
Fixpoint nth_cdr (n : nat) (u : U) : result U :=
  match n with
  | O => Ok u
  | S k => (d <- Cons_cdr u ;; nth_cdr k d)%result
  end.

(** Every rest slot that is set, at any depth, holds a [Cons]. *)
Fixpoint list_shaped (u : U) : bool :=
  match u with
  | Atom _ _ => true
  | Cons _ a d _ _ =>
      match a with Some x => list_shaped x | None => true end
      && match d with
         | Some y => instanceof_Cons y && list_shaped y
         | None => true
         end
  end.

(** [list_shaped], and every node with a head has its rest slot set: the
    nodes that [cons] and [items_to_cons] build. *)
Fixpoint proper (u : U) : bool :=
  match u with
  | Atom _ _ => true
  | Cons _ a d _ _ =>
      match a, d with
      | Some x, Some y => proper x && (instanceof_Cons y && proper y)
      | Some _, None => false
      | None, Some y => instanceof_Cons y && proper y
      | None, None => true
      end
  end.

(** [x] is an element of the pair node [p], or of an element of [p] that is
    itself a pair node, and so on. *)
Inductive held (x : U) : U -> Prop :=
| held_item (p : U) (i : Z) :
    instanceof_Cons p = true -> Cons_item p i = Ok x -> held x p
| held_nested (p q : U) (i : Z) :
    instanceof_Cons p = true -> Cons_item p i = Ok q -> held x q -> held x p.

(** [f] applied to the elements of [xs] from first to last, each call
    starting from the allocation state the previous one left. *)
Fixpoint mapM (f : U -> M U) (xs : list U) : M (list U) :=
  match xs with
  | [] => ret []
  | x :: rest =>
      (y <-- f x ;; ys <-- mapM f rest ;; ret (y :: ys))%alloc
  end.

(** ** Fixtures of the test suite

    The atoms [foo], [bar], [baz] and the lists [X = items_to_cons(foo)],
    [Y = items_to_cons(foo, bar)], [Z = items_to_cons(X, bar)] and
    [items_to_cons(foo, bar, baz)] (here [listX], [listY], [listZ], [listW]), allocated in this order after the
    sentinel. *)
Definition foo : U := Atom 1 "foo".
Definition bar : U := Atom 2 "bar".
Definition baz : U := Atom 3 "baz".
Definition listX : U := chain None None 4 nil [foo].
Definition listY : U := chain None None 5 nil [foo; bar].
Definition listZ : U := chain None None 7 nil [listX; bar].
Definition listW : U := chain None None 9 nil [foo; bar; baz].

(** ** The second copy of the module in [src/tree.ts] (lines 413-814)

    The file holds the module twice.  The second copy takes the sentinel by
    identity: [is_nil(expr)] is [expr.equals(nil)], [is_cons(expr)] is
    [expr instanceof Cons && !is_nil(expr)], and [Cons.equals] has no branch
    for a handle that is neither the receiver nor [is_cons].  Its getters
    [car], [cdr] and its methods [isNil], [isCons] are those of the first
    copy.  The four functions call each other; they are run on a step
    budget, and the statements about them hold for every budget from the
    stated one on. *)
Module IdentityNil.

Fixpoint equals_fuel (n : nat) (this other : U) {struct n} : result bool :=
  match n with
  | O => Throw out_of_fuel
  | S k =>
      match this with
      | Atom _ _ => Ok (Atom_equals this other)
      | Cons _ _ _ _ _ =>
          if same this other then Ok true
          else
            (c <- is_cons_fuel k other ;;
             if c : bool then equal_cons_cons_fuel k this other
             else Ok false)%result
      end
  end
with is_nil_fuel (n : nat) (expr : U) {struct n} : result bool :=
  match n with
  | O => Throw out_of_fuel
  | S k => equals_fuel k expr nil
  end
with is_cons_fuel (n : nat) (expr : U) {struct n} : result bool :=
  match n with
  | O => Throw out_of_fuel
  | S k =>
      if instanceof_Cons expr then
        (r <- is_nil_fuel k expr ;; Ok (negb r))%result
      else Ok false
  end
with equal_cons_cons_fuel (n : nat) (p1 p2 : U) {struct n} : result bool :=
  match n with
  | O => Throw out_of_fuel
  | S k =>
      (c1 <- is_cons_fuel k p1 ;;
       c2 <- (if c1 : bool then is_cons_fuel k p2 else Ok false) ;;
       if c1 && c2 then
         r <- equals_fuel k (Cons_car p1) (Cons_car p2) ;;
         if r : bool then
           p1' <- Cons_cdr p1 ;;
           p2' <- Cons_cdr p2 ;;
           equal_cons_cons_fuel k p1' p2'
         else Ok false
       else
         c1' <- is_cons_fuel k p1 ;;
         if c1' : bool then Ok false
         else
           c2' <- is_cons_fuel k p2 ;;
           if c2' : bool then Ok false
           else
             r <- equals_fuel k p1 p2 ;;
             if r : bool then Ok true else Ok false)%result
  end.

End IdentityNil.

(** ** Further functions of the first copy *)

(** [is_singleton(expr: Cons)]. *)
Definition is_singleton (expr : U) : result bool :=
  if isNil expr then Ok false
  else
    (cdr_expr <- Cons_cdr expr ;;
     if isNil cdr_expr then Ok true else Ok false)%result.

(** [Atom.toString()] and [Cons.toString()]; in the template literal
    [`(${head} ${tail})`] a slot is rendered by its own [toString], and an
    unset [tail] as [undefined]. *)
Fixpoint toString (this : U) : string :=
  match this with
  | Atom _ v => "Atom('" ++ v ++ "')"
  | Cons _ a d _ _ =>
      match a with
      | Some head =>
          "(" ++ toString head ++ " "
          ++ match d with
             | Some tail => toString tail
             | None => "undefined"
             end
          ++ ")"
      | None => "()"
      end
  end.

(** [q] is [p], or a node that [contains] reaches from [p]: it descends into
    the two slots of a node only when both are set. *)
Inductive reached (q : U) : U -> Prop :=
| reached_here : reached q q
| reached_car (r : alloc) (a d : U) (pp e : option Z) :
    reached q a -> reached q (Cons r (Some a) (Some d) pp e)
| reached_cdr (r : alloc) (a d : U) (pp e : option Z) :
    reached q d -> reached q (Cons r (Some a) (Some d) pp e).

(** The rendering of a list of elements that [toString] produces: fully
    nested, the sentinel last. *)
Fixpoint nested (items : list U) : string :=
  match items with
  | [] => "()"
  | x :: rest => "(" ++ toString x ++ " " ++ nested rest ++ ")"
  end.

(** ** The list operations of the second copy (lines 413-814)

    [is_singleton], the iterator, [tail], [length] and [item] of the second
    copy test their receiver with [this !== nil] and their rest with the
    second copy's [is_cons]; they run on the step budget of
    [IdentityNil.is_cons_fuel]. *)
Module IdentityNilList.

Definition is_singleton (expr : U) : result bool :=
  if same nil expr then Ok false
  else
    (cdr_expr <- Cons_cdr expr ;;
     if same nil cdr_expr then Ok true else Ok false)%result.

Fixpoint iterator_fuel (n : nat) (u : U) {struct n} : result (list U) :=
  match n with
  | O => Throw out_of_fuel
  | S k =>
      (c <- IdentityNil.is_cons_fuel k u ;;
       if c : bool then
         d <- Cons_cdr u ;;
         rest <- iterator_fuel k d ;;
         Ok (Cons_car u :: rest)
       else Ok [])%result
  end.

Definition tail_fuel (n : nat) (this : U) : result (list U) :=
  match n with
  | O => Throw out_of_fuel
  | S k =>
      if negb (same this nil) then
        match cdr_slot this with
        | Some d =>
            (c <- IdentityNil.is_cons_fuel k d ;;
             if c : bool then iterator_fuel k d else Ok [])%result
        | None => Ok []
        end
      else Throw EmptyListError
  end.

Fixpoint length_fuel (n : nat) (this : U) {struct n} : result nat :=
  match n with
  | O => Throw out_of_fuel
  | S k =>
      if negb (same this nil) then
        (argList <- Cons_argList this ;;
         c <- IdentityNil.is_cons_fuel k argList ;;
         if c : bool then r <- length_fuel k argList ;; Ok (r + 1)
         else Ok 1)%result
      else Ok 0
  end.

Fixpoint item_fuel (n : nat) (this : U) (index : Z) {struct n} : result U :=
  match n with
  | O => Throw out_of_fuel
  | S k =>
      if (0 <=? index)%Z && negb (same this nil) then
        if (index =? 0)%Z then Ok (Cons_car this)
        else
          (argList <- Cons_argList this ;;
           c <- IdentityNil.is_cons_fuel k argList ;;
           if c : bool then item_fuel k argList (index - 1)
           else Throw IndexError)%result
      else Throw IndexError
  end.

End IdentityNilList.

(** The sentinel is the only node without a head, at any depth. *)
Fixpoint canonical (u : U) : bool :=
  match u with
  | Atom _ _ => true
  | Cons r a d p e =>
      match a with
      | None => same (Cons r a d p e) nil
      | Some x =>
          canonical x
          && match d with Some y => canonical y | None => true end
      end
  end.

(** * Properties *)

(** ** Identity *)

Lemma optZ_eqb_eq (a b : option Z) : optZ_eqb a b = true <-> a = b.
Proof.
  destruct a as [x|], b as [y|]; simpl; split; intro H;
    try discriminate; try reflexivity.
  - apply Z.eqb_eq in H. now subst.
  - injection H as ->. apply Z.eqb_refl.
Qed.

(** An induction principle that reaches into the optional slots. *)
Lemma U_slot_ind (P : U -> Prop) :
  (forall r v, P (Atom r v)) ->
  (forall r a d p e,
      (forall x, a = Some x -> P x) ->
      (forall x, d = Some x -> P x) ->
      P (Cons r a d p e)) ->
  forall u, P u.
Proof.
  intros HA HC.
  fix IH 1.
  intros [r v | r a d p e].
  - apply HA.
  - apply HC.
    + intros x Hx. destruct a as [a'|]; [|discriminate].
      injection Hx as <-. apply IH.
    + intros x Hx. destruct d as [d'|]; [|discriminate].
      injection Hx as <-. apply IH.
Qed.

Lemma same_refl (a : U) : same a a = true.
Proof.
  induction a as [r v | r a d p e IHa IHd] using U_slot_ind; simpl.
  - now rewrite Nat.eqb_refl, String.eqb_refl.
  - rewrite Nat.eqb_refl. simpl.
    assert (Hp : optZ_eqb p p = true) by now apply optZ_eqb_eq.
    assert (He : optZ_eqb e e = true) by now apply optZ_eqb_eq.
    rewrite Hp, He.
    destruct a as [x|], d as [y|]; simpl;
      rewrite ?(IHa _ eq_refl), ?(IHd _ eq_refl); reflexivity.
Qed.

Lemma same_eq (a b : U) : same a b = true -> a = b.
Proof.
  revert b.
  induction a as [r v | r a d p e IHa IHd] using U_slot_ind;
    intros [r' v' | r' a' d' p' e']; simpl; try discriminate.
  - intro H. apply andb_prop in H as [Hr Hv].
    apply Nat.eqb_eq in Hr. apply String.eqb_eq in Hv. now subst.
  - intro H.
    apply andb_prop in H as [H He]. apply andb_prop in H as [H Hp].
    apply andb_prop in H as [H Hd]. apply andb_prop in H as [Hr Ha].
    apply Nat.eqb_eq in Hr. apply optZ_eqb_eq in Hp, He. subst.
    assert (a = a') as ->.
    { destruct a as [x|], a' as [x'|]; try discriminate; [|reflexivity].
      f_equal. now apply (IHa x eq_refl). }
    assert (d = d') as ->.
    { destruct d as [x|], d' as [x'|]; try discriminate; [|reflexivity].
      f_equal. now apply (IHd x eq_refl). }
    reflexivity.
Qed.

Lemma same_iff (a b : U) : same a b = true <-> a = b.
Proof.
  split; [apply same_eq | intros ->; apply same_refl].
Qed.

Lemma same_sym (a b : U) : same a b = same b a.
Proof.
  destruct (same a b) eqn:Hab.
  - apply same_eq in Hab. subst. symmetry. apply same_refl.
  - destruct (same b a) eqn:Hba; [|reflexivity].
    apply same_eq in Hba. subst. now rewrite same_refl in Hab.
Qed.

Lemma same_neq (a b : U) : a <> b -> same a b = false.
Proof.
  intro H. destruct (same a b) eqn:E; [|reflexivity].
  now apply same_eq in E.
Qed.

(** ** Shapes and sizes *)

Lemma size_pos (u : U) : 1 <= size u.
Proof. destruct u; simpl; lia. Qed.

Lemma is_cons_inv (u : U) :
  is_cons u = true -> exists r a d p e, u = Cons r (Some a) d p e.
Proof.
  destruct u as [r v | r [a|] d p e]; simpl; try discriminate.
  intros _. now exists r, a, d, p, e.
Qed.

Lemma is_cons_nil : is_cons nil = false.
Proof. reflexivity. Qed.

Lemma is_cons_isNil (u : U) : is_cons u = true -> isNil u = false.
Proof.
  intro H. apply is_cons_inv in H as (r & a & d & p & e & ->). reflexivity.
Qed.

Lemma is_cons_instanceof (u : U) : is_cons u = true -> instanceof_Cons u = true.
Proof.
  intro H. apply is_cons_inv in H as (r & a & d & p & e & ->). reflexivity.
Qed.

Lemma Cons_cdr_instanceof (u d : U) : Cons_cdr u = Ok d -> instanceof_Cons d = true.
Proof.
  unfold Cons_cdr. destruct (cdr_slot u) as [x|].
  - destruct (instanceof_Cons x) eqn:E; [|discriminate].
    intro H. injection H as <-. exact E.
  - intro H. injection H as <-. reflexivity.
Qed.

Lemma Cons_car_size (u : U) : is_cons u = true -> size (Cons_car u) < size u.
Proof.
  intro H. apply is_cons_inv in H as (r & a & d & p & e & ->).
  unfold Cons_car. simpl. lia.
Qed.

Lemma Cons_cdr_size (u d : U) :
  is_cons u = true -> Cons_cdr u = Ok d -> size d < size u.
Proof.
  intro H. apply is_cons_inv in H as (r & a & [x|] & p & e & ->);
    unfold Cons_cdr; simpl.
  - destruct (instanceof_Cons x); [|discriminate].
    intro H. injection H as <-. lia.
  - intro H. injection H as <-. simpl. pose proof (size_pos a). lia.
Qed.

(** A non-empty node handed out by the [cdr] getter is the stored slot. *)
Lemma Cons_cdr_is_cons_size (u d : U) :
  Cons_cdr u = Ok d -> is_cons d = true -> size d < size u.
Proof.
  unfold Cons_cdr. destruct u as [r v | r a [x|] p e]; simpl.
  - intro H. injection H as <-. discriminate.
  - destruct (instanceof_Cons x); [|discriminate].
    intro H. injection H as <-. intros _. lia.
  - intro H. injection H as <-. discriminate.
Qed.

(** ** The step budget of [equals] is never exhausted *)

Lemma equals_fuel_flat (n : nat) (this other : U) :
  is_cons other = false ->
  equals_fuel (S n) this other = equals_fuel 1 this other.
Proof.
  intro H. simpl. destruct this; [reflexivity|].
  now rewrite H.
Qed.

Lemma equals_fuel_irrel (n : nat) :
  forall m,
    (forall this other,
        2 * size this + 1 <= n -> 2 * size this + 1 <= m ->
        equals_fuel n this other = equals_fuel m this other)
    /\ (forall p1 p2,
        2 * size p1 <= n -> 2 * size p1 <= m ->
        equal_cons_cons_fuel n p1 p2 = equal_cons_cons_fuel m p1 p2).
Proof.
  induction n as [|k IH]; intros m; split.
  - intros this other H. lia.
  - intros p1 p2 H. pose proof (size_pos p1). lia.
  - intros this other Hn Hm.
    destruct m as [|j]; [lia|].
    simpl. destruct this as [r v | r a d p e]; [reflexivity|].
    destruct (same _ other); [reflexivity|].
    destruct (is_cons other); [|reflexivity].
    apply (proj2 (IH j)); lia.
  - intros p1 p2 Hn Hm.
    destruct m as [|j]; [pose proof (size_pos p1); lia|].
    simpl.
    destruct (is_cons p1) eqn:H1; simpl.
    + destruct (is_cons p2) eqn:H2; [|reflexivity].
      pose proof (Cons_car_size p1 H1) as Hc.
      rewrite (proj1 (IH j) (Cons_car p1) (Cons_car p2)) by lia.
      destruct (equals_fuel j _ _) as [[|]|err]; simpl; try reflexivity.
      destruct (Cons_cdr p1) as [p1'|err] eqn:E1; simpl; [|reflexivity].
      destruct (Cons_cdr p2) as [p2'|err]; simpl; [|reflexivity].
      pose proof (Cons_cdr_size p1 p1' H1 E1).
      apply (proj2 (IH j)); lia.
    + destruct (is_cons p2) eqn:H2; [reflexivity|].
      pose proof (size_pos p1).
      destruct k as [|k']; [lia|]. destruct j as [|j']; [lia|].
      now rewrite (equals_fuel_flat k' p1 p2 H2), (equals_fuel_flat j' p1 p2 H2).
Qed.

(** The recursion equations of [Cons.equals] / [Atom.equals] and of the loop
    of [equal_cons_cons], as the source writes them. *)
Lemma equals_unfold (this other : U) :
  equals this other =
  match this with
  | Atom _ _ => Ok (Atom_equals this other)
  | Cons _ _ _ _ _ =>
      if same this other then Ok true
      else if is_cons other then equal_cons_cons this other
      else if is_atom other then Ok false
      else if isNil other then Ok (isNil this)
      else Ok false
  end.
Proof.
  unfold equals, equal_cons_cons.
  replace (2 * size this + 1) with (S (2 * size this)) by lia.
  reflexivity.
Qed.

Lemma equal_cons_cons_unfold (p1 p2 : U) :
  equal_cons_cons p1 p2 =
  if is_cons p1 && is_cons p2 then
    (r <- equals (Cons_car p1) (Cons_car p2) ;;
     if r : bool then
       p1' <- Cons_cdr p1 ;;
       p2' <- Cons_cdr p2 ;;
       equal_cons_cons p1' p2'
     else Ok false)%result
  else if is_cons p1 then Ok false
  else if is_cons p2 then Ok false
  else (r <- equals p1 p2 ;; if r : bool then Ok true else Ok false)%result.
Proof.
  unfold equal_cons_cons at 1.
  pose proof (size_pos p1) as Hs.
  destruct (2 * size p1) as [|k] eqn:Hk; [lia|].
  simpl.
  destruct (is_cons p1) eqn:H1; simpl.
  - destruct (is_cons p2) eqn:H2; [|reflexivity].
    pose proof (Cons_car_size p1 H1) as Hc.
    unfold equals.
    rewrite (proj1 (equals_fuel_irrel k (2 * size (Cons_car p1) + 1))
               (Cons_car p1) (Cons_car p2)) by lia.
    destruct (equals_fuel _ _ _) as [[|]|err]; simpl; try reflexivity.
    destruct (Cons_cdr p1) as [p1'|err] eqn:E1; simpl; [|reflexivity].
    destruct (Cons_cdr p2) as [p2'|err]; simpl; [|reflexivity].
    pose proof (Cons_cdr_size p1 p1' H1 E1).
    unfold equal_cons_cons.
    apply (proj2 (equals_fuel_irrel k (2 * size p1'))); lia.
  - destruct (is_cons p2) eqn:H2; [reflexivity|].
    unfold equals.
    destruct k as [|k']; [lia|].
    rewrite (equals_fuel_flat k' p1 p2 H2).
    replace (2 * size p1 + 1) with (S (2 * size p1)) by lia.
    now rewrite (equals_fuel_flat (2 * size p1) p1 p2 H2).
Qed.

Arguments equals : simpl never.
Arguments equal_cons_cons : simpl never.

(** ** The step budgets of the chain walks are never exhausted *)

Lemma length_fuel_irrel (n : nat) :
  forall m this, size this <= n -> size this <= m ->
                 length_fuel n this = length_fuel m this.
Proof.
  induction n as [|k IH]; intros m this Hn Hm;
    [pose proof (size_pos this); lia|].
  destruct m as [|j]; [pose proof (size_pos this); lia|].
  simpl. destruct (isNil this); [reflexivity|].
  unfold Cons_argList.
  destruct (Cons_cdr this) as [b|err] eqn:Eb; simpl; [|reflexivity].
  destruct (is_cons b) eqn:Hb; [|reflexivity].
  pose proof (Cons_cdr_is_cons_size this b Eb Hb).
  rewrite (IH j b) by lia. reflexivity.
Qed.

Lemma Cons_length_unfold (this : U) :
  Cons_length this =
  if isNil this then Ok 0
  else
    (argList <- Cons_argList this ;;
     if is_cons argList then r <- Cons_length argList ;; Ok (r + 1)
     else Ok 1)%result.
Proof.
  unfold Cons_length at 1.
  pose proof (size_pos this).
  destruct (size this) as [|k] eqn:Hk; [lia|].
  simpl. destruct (isNil this); [reflexivity|].
  unfold Cons_argList.
  destruct (Cons_cdr this) as [b|err] eqn:Eb; simpl; [|reflexivity].
  destruct (is_cons b) eqn:Hb; [|reflexivity].
  pose proof (Cons_cdr_is_cons_size this b Eb Hb).
  unfold Cons_length.
  rewrite (length_fuel_irrel k (size b) b) by lia. reflexivity.
Qed.

Lemma item_fuel_irrel (n : nat) :
  forall m this index, size this <= n -> size this <= m ->
                       item_fuel n this index = item_fuel m this index.
Proof.
  induction n as [|k IH]; intros m this index Hn Hm;
    [pose proof (size_pos this); lia|].
  destruct m as [|j]; [pose proof (size_pos this); lia|].
  simpl. destruct ((0 <=? index)%Z && negb (isNil this)); [|reflexivity].
  destruct (index =? 0)%Z; [reflexivity|].
  unfold Cons_argList.
  destruct (Cons_cdr this) as [b|err] eqn:Eb; simpl; [|reflexivity].
  destruct (is_cons b) eqn:Hb; [|reflexivity].
  pose proof (Cons_cdr_is_cons_size this b Eb Hb).
  apply IH; lia.
Qed.

Lemma Cons_item_unfold (this : U) (index : Z) :
  Cons_item this index =
  if (0 <=? index)%Z && negb (isNil this) then
    if (index =? 0)%Z then Ok (Cons_car this)
    else
      (argList <- Cons_argList this ;;
       if is_cons argList then Cons_item argList (index - 1)
       else Throw IndexError)%result
  else Throw IndexError.
Proof.
  unfold Cons_item at 1.
  pose proof (size_pos this).
  destruct (size this) as [|k] eqn:Hk; [lia|].
  simpl. destruct ((0 <=? index)%Z && negb (isNil this)); [|reflexivity].
  destruct (index =? 0)%Z; [reflexivity|].
  unfold Cons_argList.
  destruct (Cons_cdr this) as [b|err] eqn:Eb; simpl; [|reflexivity].
  destruct (is_cons b) eqn:Hb; [|reflexivity].
  pose proof (Cons_cdr_is_cons_size this b Eb Hb).
  unfold Cons_item.
  apply item_fuel_irrel; lia.
Qed.

Lemma iterator_fuel_irrel (n : nat) :
  forall m u, size u <= n -> size u <= m ->
              iterator_fuel n u = iterator_fuel m u.
Proof.
  induction n as [|k IH]; intros m u Hn Hm;
    [pose proof (size_pos u); lia|].
  destruct m as [|j]; [pose proof (size_pos u); lia|].
  simpl. destruct (is_cons u) eqn:Hu; [|reflexivity].
  destruct (Cons_cdr u) as [d|err] eqn:Ed; simpl; [|reflexivity].
  pose proof (Cons_cdr_size u d Hu Ed).
  rewrite (IH j d) by lia. reflexivity.
Qed.

Lemma Cons_iterator_unfold (u : U) :
  Cons_iterator u =
  if is_cons u then
    (d <- Cons_cdr u ;; rest <- Cons_iterator d ;; Ok (Cons_car u :: rest))%result
  else Ok [].
Proof.
  unfold Cons_iterator at 1.
  pose proof (size_pos u).
  destruct (size u) as [|k] eqn:Hk; [lia|].
  simpl. destruct (is_cons u) eqn:Hu; [|reflexivity].
  destruct (Cons_cdr u) as [d|err] eqn:Ed; simpl; [|reflexivity].
  pose proof (Cons_cdr_size u d Hu Ed).
  unfold Cons_iterator.
  rewrite (iterator_fuel_irrel k (size d) d) by lia. reflexivity.
Qed.

Lemma map_fuel_irrel (f : U -> M U) (n : nat) :
  forall m this s, size this <= n -> size this <= m ->
                   map_fuel n f this s = map_fuel m f this s.
Proof.
  induction n as [|k IH]; intros m this s Hn Hm;
    [pose proof (size_pos this); lia|].
  destruct m as [|j]; [pose proof (size_pos this); lia|].
  simpl. destruct (isNil this); [reflexivity|].
  unfold bind, lift.
  destruct (Cons_cdr this) as [b|err] eqn:Eb; [|reflexivity].
  destruct (f (Cons_car this) s) as [[fa|err] s1]; [|reflexivity].
  destruct (is_cons b) eqn:Hb; [|reflexivity].
  pose proof (Cons_cdr_is_cons_size this b Eb Hb).
  rewrite (IH j b s1) by lia. reflexivity.
Qed.

Lemma Cons_map_unfold (f : U -> M U) (this : U) (s : alloc) :
  Cons_map f this s =
  (if isNil this then ret this
   else
     let a := Cons_car this in
     (b <-- lift (Cons_cdr this) ;;
      fa <-- f a ;;
      rest <-- (if is_cons b then Cons_map f b else ret b) ;;
      new_Cons (Some fa) (Some rest) (pos this) (end_ this))%alloc) s.
Proof.
  unfold Cons_map at 1.
  pose proof (size_pos this).
  destruct (size this) as [|k] eqn:Hk; [lia|].
  simpl. destruct (isNil this); [reflexivity|].
  unfold bind, lift.
  destruct (Cons_cdr this) as [b|err] eqn:Eb; [|reflexivity].
  destruct (f (Cons_car this) s) as [[fa|err] s1]; [|reflexivity].
  destruct (is_cons b) eqn:Hb; [|reflexivity].
  pose proof (Cons_cdr_is_cons_size this b Eb Hb).
  unfold Cons_map.
  rewrite (map_fuel_irrel f k (size b) b s1) by lia. reflexivity.
Qed.

Arguments Cons_length : simpl never.
Arguments Cons_item : simpl never.
Arguments Cons_iterator : simpl never.
Arguments Cons_map : simpl never.

(** ** The list builder *)

Lemma chain_snoc (p e : option Z) (s : alloc) (node x : U) (l : list U) :
  chain p e s node (l ++ [x]) = chain p e (S s) (Cons s (Some x) (Some node) p e) l.
Proof.
  induction l as [|y l IH]; simpl.
  - now rewrite Nat.add_0_r.
  - rewrite IH, length_app. simpl. f_equal. lia.
Qed.

Lemma items_loop_chain (p e : option Z) (l1 : list U) :
  forall l2 node s,
    items_loop p e (l1 ++ l2) (List.length l1) node s =
    (Ok (chain p e s node l1), s + List.length l1).
Proof.
  induction l1 as [|x l IH] using rev_ind; intros l2 node s.
  - simpl. unfold ret. now rewrite Nat.add_0_r.
  - rewrite length_app. simpl. rewrite Nat.add_1_r. simpl.
    unfold bind, new_Cons.
    rewrite <- app_assoc. simpl.
    rewrite nth_error_app2 by lia. rewrite Nat.sub_diag. simpl.
    rewrite IH, chain_snoc. f_equal. lia.
Qed.

Lemma pos_end_items_to_cons_chain (p e : option Z) (items : list U) (s : alloc) :
  pos_end_items_to_cons p e items s =
  (Ok (chain p e s nil items), s + List.length items).
Proof.
  unfold pos_end_items_to_cons.
  pose proof (items_loop_chain p e items [] nil s) as H.
  now rewrite app_nil_r in H.
Qed.

Lemma items_to_cons_chain (items : list U) (s : alloc) :
  items_to_cons items s = (Ok (chain None None s nil items), s + List.length items).
Proof. apply pos_end_items_to_cons_chain. Qed.

Section Chain.
Variables (p e : option Z) (s : alloc).

Local Abbreviation list_of items := (chain p e s nil items).

Lemma chain_instanceof (items : list U) : instanceof_Cons (list_of items) = true.
Proof. destruct items; reflexivity. Qed.

Lemma chain_is_cons (x : U) (rest : list U) : is_cons (list_of (x :: rest)) = true.
Proof. reflexivity. Qed.

Lemma chain_car (x : U) (rest : list U) : Cons_car (list_of (x :: rest)) = x.
Proof. reflexivity. Qed.

Lemma chain_cdr (x : U) (rest : list U) :
  Cons_cdr (list_of (x :: rest)) = Ok (list_of rest).
Proof.
  unfold Cons_cdr. simpl.
  now rewrite chain_instanceof.
Qed.

Lemma chain_length (items : list U) :
  Cons_length (list_of items) = Ok (List.length items).
Proof.
  induction items as [|x rest IH]; rewrite Cons_length_unfold.
  - reflexivity.
  - change (isNil (list_of (x :: rest))) with false. cbv iota.
    unfold Cons_argList. rewrite chain_cdr. simpl rbind.
    rewrite IH. destruct rest as [|y rest]; simpl.
    + reflexivity.
    + do 2 f_equal. lia.
Qed.

Lemma chain_nth_cdr (items : list U) :
  nth_cdr (List.length items) (list_of items) = Ok nil.
Proof.
  induction items as [|x rest IH].
  - reflexivity.
  - cbn [List.length nth_cdr]. rewrite chain_cdr. exact IH.
Qed.

Lemma chain_iterator (items : list U) : Cons_iterator (list_of items) = Ok items.
Proof.
  induction items as [|x rest IH]; rewrite Cons_iterator_unfold.
  - reflexivity.
  - rewrite chain_is_cons, chain_cdr. simpl rbind. now rewrite IH.
Qed.

Lemma chain_item (items : list U) :
  forall index : Z,
    Cons_item (list_of items) index =
    if (0 <=? index)%Z then
      match nth_error items (Z.to_nat index) with
      | Some x => Ok x
      | None => Throw IndexError
      end
    else Throw IndexError.
Proof.
  induction items as [|x rest IH]; intro index; rewrite Cons_item_unfold.
  - change (isNil (list_of [])) with true.
    rewrite andb_false_r.
    destruct (0 <=? index)%Z; [|reflexivity].
    now destruct (Z.to_nat index).
  - change (isNil (list_of (x :: rest))) with false.
    rewrite andb_true_r.
    destruct (0 <=? index)%Z eqn:Hi; [|reflexivity].
    apply Z.leb_le in Hi.
    destruct (index =? 0)%Z eqn:H0.
    + apply Z.eqb_eq in H0. subst. reflexivity.
    + apply Z.eqb_neq in H0.
      unfold Cons_argList. rewrite chain_cdr. simpl rbind.
      replace (Z.to_nat index) with (S (Z.to_nat (index - 1))) by lia.
      cbn [nth_error].
      destruct rest as [|y rest].
      * change (is_cons (list_of [])) with false. cbv iota.
        now destruct (Z.to_nat (index - 1)).
      * rewrite chain_is_cons, IH.
        assert (H1 : (0 <=? index - 1)%Z = true) by (apply Z.leb_le; lia).
        now rewrite H1.
Qed.

Lemma chain_tail (x : U) (rest : list U) : Cons_tail (list_of (x :: rest)) = Ok rest.
Proof.
  unfold Cons_tail. simpl.
  destruct rest as [|y rest].
  - reflexivity.
  - rewrite chain_is_cons. apply chain_iterator.
Qed.
End Chain.

(** ** Structural equality *)

Lemma equals_refl (x : U) : equals x x = Ok true.
Proof.
  rewrite equals_unfold. destruct x.
  - unfold Atom_equals. now rewrite same_refl.
  - now rewrite same_refl.
Qed.

Lemma Atom_equals_sym (a b : U) :
  instanceof_Atom a = true -> instanceof_Atom b = true ->
  Atom_equals a b = Atom_equals b a.
Proof.
  destruct a as [r v|]; [|discriminate]. destruct b as [r' v'|]; [|discriminate].
  intros _ _. unfold Atom_equals. rewrite (same_sym (Atom r' v') (Atom r v)).
  destruct (same _ _); [reflexivity|]. apply String.eqb_sym.
Qed.

Lemma equals_Atom_Cons (a c : U) :
  instanceof_Atom a = true -> instanceof_Cons c = true ->
  equals a c = Ok false /\ equals c a = Ok false.
Proof.
  destruct a as [r v|]; [|discriminate]. destruct c as [|r' x d p e]; [discriminate|].
  intros _ _. rewrite !equals_unfold. split; reflexivity.
Qed.

(** Two pair-typed handles without a head are equal, whichever they are. *)
Lemma equals_heads_unset (a b : U) :
  instanceof_Cons a = true -> instanceof_Cons b = true ->
  isNil a = true -> isNil b = true -> equals a b = Ok true.
Proof.
  destruct a as [|r [x|] d p e]; try discriminate.
  destruct b as [|r' [x'|] d' p' e']; try discriminate.
  intros _ _ _ _. rewrite equals_unfold.
  destruct (same _ _); reflexivity.
Qed.

Lemma equals_sym_flat (a b : U) :
  is_cons a = false -> is_cons b = false -> equals a b = equals b a.
Proof.
  intros Ha Hb.
  destruct a as [r v | r x d p e], b as [r' v' | r' x' d' p' e'].
  - rewrite !equals_unfold. f_equal. now apply Atom_equals_sym.
  - destruct (equals_Atom_Cons (Atom r v) (Cons r' x' d' p' e') eq_refl eq_refl)
      as [-> ->]. reflexivity.
  - destruct (equals_Atom_Cons (Atom r' v') (Cons r x d p e) eq_refl eq_refl)
      as [-> ->]. reflexivity.
  - destruct x as [x|]; [discriminate|]. destruct x' as [x'|]; [discriminate|].
    now rewrite !equals_heads_unset.
Qed.

Lemma Cons_cdr_throw (u : U) (err : exn) :
  Cons_cdr u = Throw err -> err = Error EmptyString.
Proof.
  unfold Cons_cdr. destruct (cdr_slot u) as [d|]; [|discriminate].
  destruct (instanceof_Cons d); [discriminate|]. now intros [= <-].
Qed.

(** A non-empty pair node and a pair-typed handle without a head differ. *)
Lemma equals_cons_empty (a b : U) :
  is_cons a = true -> instanceof_Cons b = true -> isNil b = true ->
  equals a b = Ok false /\ equals b a = Ok false.
Proof.
  intros Ha Ib Hb.
  assert (Hcb : is_cons b = false) by (unfold is_cons; now rewrite Ib, Hb).
  assert (Hne : a <> b) by (intros ->; congruence).
  apply is_cons_inv in Ha as Ia. destruct Ia as (r & x & d & p & e & ->).
  destruct b as [|r' x' d' p' e']; [discriminate|].
  split; rewrite equals_unfold.
  - rewrite (same_neq _ _ Hne), Hcb. unfold is_atom, is_nil. now rewrite Hcb, Hb.
  - rewrite (same_neq _ _ (not_eq_sym Hne)), Ha.
    now rewrite equal_cons_cons_unfold, Hcb, Ha.
Qed.

Lemma equals_sym_joint (n : nat) :
  (forall a b, size a + size b <= n -> equals a b = equals b a)
  /\ (forall p1 p2, size p1 + size p2 <= n ->
                    equal_cons_cons p1 p2 = equal_cons_cons p2 p1).
Proof.
  induction n as [n IH] using lt_wf_ind.
  assert (Hloop : forall p1 p2, size p1 + size p2 <= n ->
                                equal_cons_cons p1 p2 = equal_cons_cons p2 p1).
  { intros p1 p2 Hn.
    rewrite (equal_cons_cons_unfold p1 p2), (equal_cons_cons_unfold p2 p1).
    destruct (is_cons p1) eqn:H1, (is_cons p2) eqn:H2; simpl; try reflexivity.
    - pose proof (Cons_car_size p1 H1). pose proof (Cons_car_size p2 H2).
      rewrite (proj1 (IH (size (Cons_car p1) + size (Cons_car p2)) ltac:(lia))
                 (Cons_car p1) (Cons_car p2)) by lia.
      destruct (equals (Cons_car p2) (Cons_car p1)) as [[|]|err]; simpl;
        try reflexivity.
      destruct (Cons_cdr p1) as [p1'|e1] eqn:E1, (Cons_cdr p2) as [p2'|e2] eqn:E2;
        simpl; try reflexivity.
      + pose proof (Cons_cdr_size p1 p1' H1 E1).
        pose proof (Cons_cdr_size p2 p2' H2 E2).
        apply (proj2 (IH (size p1' + size p2') ltac:(lia))). lia.
      + apply Cons_cdr_throw in E1, E2. now subst.
    - now rewrite (equals_sym_flat p1 p2 H1 H2). }
  split; [|exact Hloop].
  intros a b Hn.
  destruct (is_cons a) eqn:Ha, (is_cons b) eqn:Hb.
  - rewrite (equals_unfold a b), (equals_unfold b a).
    apply is_cons_inv in Ha as Ia. destruct Ia as (r & x & d & p & e & ->).
    apply is_cons_inv in Hb as Ib. destruct Ib as (r' & x' & d' & p' & e' & ->).
    rewrite Ha, Hb, (same_sym (Cons r' (Some x') d' p' e')).
    destruct (same _ _); [reflexivity|]. now apply Hloop.
  - apply is_cons_inv in Ha as Ia. destruct Ia as (r & x & d & p & e & ->).
    destruct b as [r' v' | r' [x'|] d' p' e']; try discriminate.
    + now destruct (equals_Atom_Cons (Atom r' v') (Cons r (Some x) d p e)
                      eq_refl eq_refl) as [-> ->].
    + now destruct (equals_cons_empty (Cons r (Some x) d p e)
                      (Cons r' None d' p' e') Ha eq_refl eq_refl) as [-> ->].
  - apply is_cons_inv in Hb as Ib. destruct Ib as (r' & x' & d' & p' & e' & ->).
    destruct a as [r v | r [x|] d p e]; try discriminate.
    + now destruct (equals_Atom_Cons (Atom r v) (Cons r' (Some x') d' p' e')
                      eq_refl eq_refl) as [-> ->].
    + now destruct (equals_cons_empty (Cons r' (Some x') d' p' e')
                      (Cons r None d p e) Hb eq_refl eq_refl) as [-> ->].
  - now apply equals_sym_flat.
Qed.

Lemma equals_sym (a b : U) : equals a b = equals b a.
Proof. apply (proj1 (equals_sym_joint (size a + size b))). lia. Qed.

Lemma equal_cons_cons_chains (p e p' e' : option Z) (s s' : alloc) (xs ys : list U) :
  Forall2 (fun x y => equals x y = Ok true) xs ys ->
  equal_cons_cons (chain p e s nil xs) (chain p' e' s' nil ys) = Ok true.
Proof.
  induction 1 as [|x y xs ys Hxy _ IH]; rewrite equal_cons_cons_unfold.
  - simpl. rewrite ?equals_refl. reflexivity.
  - rewrite !chain_is_cons, !chain_car, !chain_cdr. simpl.
    rewrite Hxy. exact IH.
Qed.

Lemma equals_chains (p e p' e' : option Z) (s s' : alloc) (xs ys : list U) :
  Forall2 (fun x y => equals x y = Ok true) xs ys ->
  equals (chain p e s nil xs) (chain p' e' s' nil ys) = Ok true.
Proof.
  intro H. pose proof (equal_cons_cons_chains p e p' e' s s' xs ys H) as Hloop.
  destruct H as [|x y xs ys Hxy H].
  - apply equals_refl.
  - rewrite equals_unfold. cbn [chain].
    destruct (same _ _); [reflexivity|].
    change (is_cons (chain p' e' s' nil (y :: ys))) with true. cbv iota.
    exact Hloop.
Qed.

Lemma equal_cons_cons_true_is_cons (a b : U) :
  equal_cons_cons a b = Ok true -> is_cons a = is_cons b.
Proof.
  rewrite equal_cons_cons_unfold.
  destruct (is_cons a), (is_cons b); simpl; try reflexivity; discriminate.
Qed.

Lemma length_heads_unset (a : U) :
  isNil a = true -> Cons_length a = Ok 0.
Proof. intro H. rewrite Cons_length_unfold. now rewrite H. Qed.

Lemma instanceof_not_is_cons (a : U) :
  instanceof_Cons a = true -> is_cons a = false -> isNil a = true.
Proof.
  unfold is_cons. intros ->. now destruct (isNil a).
Qed.

Lemma equal_cons_cons_true_length (n : nat) :
  forall p1 p2,
    size p1 <= n ->
    instanceof_Cons p1 = true -> instanceof_Cons p2 = true ->
    equal_cons_cons p1 p2 = Ok true ->
    Cons_length p1 = Cons_length p2.
Proof.
  induction n as [|k IH]; intros p1 p2 Hn I1 I2 Heq;
    [pose proof (size_pos p1); lia|].
  pose proof (equal_cons_cons_true_is_cons p1 p2 Heq) as Hc.
  rewrite equal_cons_cons_unfold in Heq.
  destruct (is_cons p1) eqn:H1; rewrite <- Hc in Heq; simpl in Heq.
  - destruct (equals (Cons_car p1) (Cons_car p2)) as [[|]|err];
      simpl in Heq; try discriminate.
    destruct (Cons_cdr p1) as [p1'|err] eqn:E1; simpl in Heq; [|discriminate].
    destruct (Cons_cdr p2) as [p2'|err] eqn:E2; simpl in Heq; [|discriminate].
    pose proof (Cons_cdr_size p1 p1' H1 E1).
    assert (Hl : Cons_length p1' = Cons_length p2').
    { apply IH; [lia| | |exact Heq].
      - exact (Cons_cdr_instanceof p1 p1' E1).
      - exact (Cons_cdr_instanceof p2 p2' E2). }
    rewrite (Cons_length_unfold p1), (Cons_length_unfold p2).
    rewrite (is_cons_isNil p1 H1), (is_cons_isNil p2 (eq_sym Hc)).
    unfold Cons_argList. rewrite E1, E2. simpl.
    now rewrite (equal_cons_cons_true_is_cons p1' p2' Heq), Hl.
  - rewrite !length_heads_unset; auto using instanceof_not_is_cons.
Qed.

Lemma equals_true_length (p q : U) :
  instanceof_Cons p = true -> instanceof_Cons q = true ->
  equals p q = Ok true -> Cons_length p = Cons_length q.
Proof.
  intros Ip Iq. rewrite equals_unfold.
  destruct p as [|r x d pp e]; [discriminate|].
  destruct (same _ q) eqn:Hs.
  - apply same_eq in Hs. now subst.
  - destruct (is_cons q) eqn:Hq.
    + now apply (equal_cons_cons_true_length (size (Cons r x d pp e))).
    + pose proof (instanceof_not_is_cons q Iq Hq) as Hn.
      unfold is_atom, is_nil. rewrite Hq, Hn.
      intros [= Hp]. now rewrite !length_heads_unset.
Qed.

(** What the sentinel compares equal to: exactly the handles [isNil] accepts. *)
Lemma equals_nil_isNil (x : U) : equals x nil = Ok (isNil x).
Proof.
  rewrite equals_unfold. destruct x as [r v | r a d p e].
  - reflexivity.
  - destruct (same _ nil) eqn:Hs.
    + apply same_eq in Hs. now rewrite Hs.
    + reflexivity.
Qed.

(** ** Well-shaped trees *)

Lemma list_shaped_car (u : U) : list_shaped u = true -> list_shaped (Cons_car u) = true.
Proof.
  destruct u as [|r [a|] d p e]; simpl; try reflexivity.
  intro H. now apply andb_prop in H as [H _].
Qed.

Lemma list_shaped_cdr (u : U) :
  list_shaped u = true -> exists d, Cons_cdr u = Ok d /\ list_shaped d = true.
Proof.
  unfold Cons_cdr. destruct u as [|r a [y|] p e]; simpl.
  - intros _. now exists nil.
  - intro H. apply andb_prop in H as [_ H]. apply andb_prop in H as [Hi Hy].
    rewrite Hi. now exists y.
  - intros _. now exists nil.
Qed.

Lemma proper_list_shaped (u : U) : proper u = true -> list_shaped u = true.
Proof.
  induction u as [r v | r a d p e IHa IHd] using U_slot_ind; [reflexivity|].
  simpl. destruct a as [x|], d as [y|]; try discriminate; try reflexivity.
  - intro H. apply andb_prop in H as [Hx H]. apply andb_prop in H as [Hi Hy].
    now rewrite (IHa x eq_refl Hx), Hi, (IHd y eq_refl Hy).
  - intro H. apply andb_prop in H as [Hi Hy].
    now rewrite Hi, (IHd y eq_refl Hy).
Qed.

Lemma proper_chain (p e : option Z) (s : alloc) (items : list U) :
  Forall (fun x => proper x = true) items ->
  proper (chain p e s nil items) = true.
Proof.
  induction 1 as [|x rest Hx _ IH]; [reflexivity|].
  cbn [chain proper]. now rewrite Hx, chain_instanceof, IH.
Qed.

Lemma equals_flat_total (a b : U) :
  is_cons b = false -> exists r, equals a b = Ok r.
Proof.
  intro Hb. rewrite equals_unfold. destruct a; [eauto|].
  rewrite Hb. destruct (same _ _), (is_atom b), (isNil b); eauto.
Qed.

(** On list-shaped handles [equals] returns: the error branch of the [cdr]
    getter is never taken. *)
Lemma equals_total_joint (n : nat) :
  forall a, size a <= n -> list_shaped a = true ->
    (forall b, list_shaped b = true -> exists r, equal_cons_cons a b = Ok r)
    /\ (forall b, list_shaped b = true -> exists r, equals a b = Ok r).
Proof.
  induction n as [|k IH]; intros a Hn La; [pose proof (size_pos a); lia|].
  assert (Hloop : forall b, list_shaped b = true ->
                            exists r, equal_cons_cons a b = Ok r).
  { intros b Lb. rewrite equal_cons_cons_unfold.
    destruct (is_cons a) eqn:Ha, (is_cons b) eqn:Hb; simpl; eauto.
    - pose proof (Cons_car_size a Ha).
      destruct (proj2 (IH (Cons_car a) ltac:(lia) (list_shaped_car a La))
                  (Cons_car b) (list_shaped_car b Lb)) as [[|] ->]; simpl; eauto.
      destruct (list_shaped_cdr a La) as (a' & Ea & La').
      destruct (list_shaped_cdr b Lb) as (b' & Eb & Lb').
      rewrite Ea, Eb. simpl.
      pose proof (Cons_cdr_size a a' Ha Ea).
      apply (proj1 (IH a' ltac:(lia) La')). exact Lb'.
    - destruct (equals_flat_total a b Hb) as [[|] ->]; simpl; eauto. }
  split; [exact Hloop|].
  intros b Lb. rewrite equals_unfold. destruct a as [|r x d p e]; [eauto|].
  destruct (same _ _), (is_cons b), (is_atom b), (isNil b); eauto.
Qed.

Lemma equals_total (a b : U) :
  list_shaped a = true -> list_shaped b = true -> exists r, equals a b = Ok r.
Proof.
  intros La Lb. now apply (proj2 (equals_total_joint (size a) a (le_n _) La)).
Qed.

(** ** Containment *)

Lemma contains_refl (x : U) : contains x x = Ok true.
Proof.
  destruct x; cbn [contains].
  - unfold Atom_equals. now rewrite same_refl.
  - now rewrite same_refl.
Qed.

Lemma contains_total (a x : U) :
  list_shaped a = true -> list_shaped x = true -> exists r, contains a x = Ok r.
Proof.
  intros La Lx. revert La.
  induction a as [r v | r a d p e IHa IHd] using U_slot_ind; intro La.
  - simpl. eauto.
  - cbn [contains]. destruct (same _ x); [eauto|].
    destruct (equals_total _ x La Lx) as [[|] ->]; simpl; [eauto|].
    destruct a as [a|], d as [d|]; eauto.
    simpl in La. apply andb_prop in La as [La Ld].
    apply andb_prop in Ld as [_ Ld].
    destruct (IHa a eq_refl La) as [[|] ->]; simpl; eauto.
Qed.

Lemma proper_not_nil_inv (p : U) :
  instanceof_Cons p = true -> isNil p = false -> proper p = true ->
  exists r a y pp e,
    p = Cons r (Some a) (Some y) pp e
    /\ proper a = true /\ instanceof_Cons y = true /\ proper y = true.
Proof.
  destruct p as [|r [a|] [y|] pp e]; simpl; try discriminate.
  intros _ _ H. apply andb_prop in H as [Ha H]. apply andb_prop in H as [Hi Hy].
  now exists r, a, y, pp, e.
Qed.

Lemma Cons_item_Ok_inv (p : U) (i : Z) (q : U) :
  Cons_item p i = Ok q ->
  isNil p = false
  /\ (i = 0%Z /\ q = Cons_car p
      \/ (0 < i)%Z /\ exists d, Cons_cdr p = Ok d /\ is_cons d = true
                               /\ Cons_item d (i - 1) = Ok q).
Proof.
  rewrite Cons_item_unfold.
  destruct (0 <=? i)%Z eqn:Hi; simpl; [|discriminate].
  apply Z.leb_le in Hi.
  destruct (isNil p); simpl; [discriminate|].
  intro H. split; [reflexivity|]. revert H.
  destruct (i =? 0)%Z eqn:H0.
  - apply Z.eqb_eq in H0. intros [= <-]. now left.
  - apply Z.eqb_neq in H0. unfold Cons_argList.
    destruct (Cons_cdr p) as [d|err]; simpl; [|discriminate].
    destruct (is_cons d) eqn:Hd; [|discriminate].
    intro H. right. split; [lia|]. now exists d.
Qed.

Lemma proper_item (n : nat) :
  forall p i q, size p <= n -> instanceof_Cons p = true -> proper p = true ->
                Cons_item p i = Ok q -> proper q = true.
Proof.
  induction n as [|k IH]; intros p i q Hn Ip Pp Hq;
    [pose proof (size_pos p); lia|].
  apply Cons_item_Ok_inv in Hq as [Hnil Hq].
  destruct (proper_not_nil_inv p Ip Hnil Pp) as (r & a & y & pp & e & -> & Pa & Iy & Py).
  destruct Hq as [[_ ->] | [_ (d & Ed & Hd & Hq)]]; [exact Pa|].
  unfold Cons_cdr in Ed. simpl in Ed. rewrite Iy in Ed. injection Ed as <-.
  apply (IH y (i - 1)%Z q); auto. simpl in Hn. lia.
Qed.

(** Whatever an element of a proper pair node contains, the node contains. *)
Lemma contains_item (x : U) (Lx : list_shaped x = true) (n : nat) :
  forall p i q, size p <= n -> instanceof_Cons p = true -> proper p = true ->
                Cons_item p i = Ok q -> contains q x = Ok true ->
                contains p x = Ok true.
Proof.
  induction n as [|k IH]; intros p i q Hn Ip Pp Hq Hx;
    [pose proof (size_pos p); lia|].
  pose proof (proper_list_shaped p Pp) as Lp.
  apply Cons_item_Ok_inv in Hq as [Hnil Hq].
  destruct (proper_not_nil_inv p Ip Hnil Pp) as (r & a & y & pp & e & -> & Pa & Iy & Py).
  cbn [contains]. destruct (same _ x); [reflexivity|].
  destruct (equals_total _ x Lp Lx) as [[|] ->]; simpl; [reflexivity|].
  destruct Hq as [[_ ->] | [_ (d & Ed & Hd & Hq)]].
  - unfold Cons_car in Hx. simpl in Hx. now rewrite Hx.
  - destruct (contains_total a x (proper_list_shaped a Pa) Lx) as [[|] ->];
      simpl; [reflexivity|].
    unfold Cons_cdr in Ed. simpl in Ed. rewrite Iy in Ed. injection Ed as <-.
    apply (IH y (i - 1)%Z q); auto. simpl in Hn. lia.
Qed.

Lemma proper_held (x p : U) : held x p -> proper p = true -> proper x = true.
Proof.
  induction 1 as [p i Ip Hi | p q i Ip Hi _ IH]; intro Pp.
  - exact (proper_item (size p) p i x (le_n _) Ip Pp Hi).
  - apply IH. exact (proper_item (size p) p i q (le_n _) Ip Pp Hi).
Qed.

Lemma contains_held (x p : U) :
  held x p -> proper p = true -> contains p x = Ok true.
Proof.
  intros H Pp.
  pose proof (proper_list_shaped x (proper_held x p H Pp)) as Lx.
  induction H as [p i Ip Hi | p q i Ip Hi _ IH].
  - apply (contains_item x Lx (size p) p i x (le_n _) Ip Pp Hi).
    apply contains_refl.
  - apply (contains_item x Lx (size p) p i q (le_n _) Ip Pp Hi).
    apply IH. exact (proper_item (size p) p i q (le_n _) Ip Pp Hi).
Qed.

(** ** Elements of a chain *)

Lemma Cons_iterator_nil_inv (u : U) :
  instanceof_Cons u = true -> Cons_iterator u = Ok [] -> isNil u = true.
Proof.
  intros Iu. rewrite Cons_iterator_unfold.
  destruct (is_cons u) eqn:Hu.
  - destruct (Cons_cdr u) as [d|err]; simpl; [|discriminate].
    destruct (Cons_iterator d); simpl; discriminate.
  - intros _. now apply instanceof_not_is_cons.
Qed.

Lemma Cons_iterator_cons_inv (u x : U) (rest : list U) :
  Cons_iterator u = Ok (x :: rest) ->
  is_cons u = true /\ x = Cons_car u
  /\ exists d, Cons_cdr u = Ok d /\ Cons_iterator d = Ok rest.
Proof.
  rewrite Cons_iterator_unfold.
  destruct (is_cons u) eqn:Hu; [|discriminate].
  destruct (Cons_cdr u) as [d|err]; simpl; [|discriminate].
  destruct (Cons_iterator d) as [l|err] eqn:El; simpl; [|discriminate].
  intros [= <- <-]. split; [reflexivity|]. split; [reflexivity|]. now exists d.
Qed.

Lemma iterator_length (xs : list U) :
  forall u, instanceof_Cons u = true -> Cons_iterator u = Ok xs ->
            Cons_length u = Ok (List.length xs).
Proof.
  induction xs as [|x rest IH]; intros u Iu Hu.
  - apply length_heads_unset. now apply Cons_iterator_nil_inv.
  - apply Cons_iterator_cons_inv in Hu as (Hc & _ & d & Ed & Hd).
    rewrite Cons_length_unfold, (is_cons_isNil u Hc).
    unfold Cons_argList. rewrite Ed. simpl.
    pose proof (Cons_cdr_instanceof u d Ed) as Id.
    rewrite (IH d Id Hd).
    destruct (is_cons d) eqn:Hcd; simpl.
    + do 2 f_equal. lia.
    + destruct rest as [|y rest]; [reflexivity|].
      apply Cons_iterator_cons_inv in Hd as (Hc' & _). congruence.
Qed.

Lemma iterator_item (xs : list U) :
  forall u index,
    instanceof_Cons u = true -> Cons_iterator u = Ok xs ->
    Cons_item u index =
    if (0 <=? index)%Z then
      match nth_error xs (Z.to_nat index) with
      | Some x => Ok x
      | None => Throw IndexError
      end
    else Throw IndexError.
Proof.
  induction xs as [|x rest IH]; intros u index Iu Hu; rewrite Cons_item_unfold.
  - rewrite (Cons_iterator_nil_inv u Iu Hu), andb_false_r.
    destruct (0 <=? index)%Z; [|reflexivity].
    now destruct (Z.to_nat index).
  - apply Cons_iterator_cons_inv in Hu as (Hc & -> & d & Ed & Hd).
    rewrite (is_cons_isNil u Hc), andb_true_r.
    destruct (0 <=? index)%Z eqn:Hi; [|reflexivity].
    apply Z.leb_le in Hi.
    destruct (index =? 0)%Z eqn:H0.
    + apply Z.eqb_eq in H0. subst. reflexivity.
    + apply Z.eqb_neq in H0.
      unfold Cons_argList. rewrite Ed. simpl rbind.
      replace (Z.to_nat index) with (S (Z.to_nat (index - 1))) by lia.
      cbn [nth_error].
      pose proof (Cons_cdr_instanceof u d Ed) as Id.
      destruct (is_cons d) eqn:Hcd.
      * rewrite (IH d (index - 1)%Z Id Hd).
        assert (H1 : (0 <=? index - 1)%Z = true) by (apply Z.leb_le; lia).
        now rewrite H1.
      * destruct rest as [|y rest].
        -- now destruct (Z.to_nat (index - 1)).
        -- apply Cons_iterator_cons_inv in Hd as (Hc' & _). congruence.
Qed.

(** ** Mapping *)

Lemma mapM_length (f : U -> M U) (xs : list U) :
  forall ys s s1, mapM f xs s = (Ok ys, s1) -> List.length ys = List.length xs.
Proof.
  induction xs as [|x rest IH]; intros ys s s1; simpl.
  - unfold ret. now intros [= <- _].
  - unfold bind. destruct (f x s) as [[y|err] s']; [|discriminate].
    destruct (mapM f rest s') as [[ys'|err] s''] eqn:E; [|discriminate].
    unfold ret. intros [= <- _]. simpl. f_equal. exact (IH ys' s' s'' E).
Qed.

Lemma mapM_pure (g : U -> U) (xs : list U) (s : alloc) :
  mapM (fun a => ret (g a)) xs s = (Ok (List.map g xs), s).
Proof.
  induction xs as [|x rest IH]; simpl; [reflexivity|].
  unfold bind, ret in *. now rewrite IH.
Qed.

Lemma Cons_map_heads_unset (f : U -> M U) (this : U) (s : alloc) :
  isNil this = true -> Cons_map f this s = (Ok this, s).
Proof. intro H. rewrite Cons_map_unfold. now rewrite H. Qed.

Lemma Cons_map_elements (f : U -> M U) (xs : list U) :
  forall p ys s s1,
    instanceof_Cons p = true ->
    Cons_iterator p = Ok xs ->
    mapM f xs s = (Ok ys, s1) ->
    exists q,
      Cons_map f p s = (Ok q, s1 + List.length xs)
      /\ instanceof_Cons q = true
      /\ Cons_iterator q = Ok ys
      /\ nth_cdr (List.length xs) q = nth_cdr (List.length xs) p
      /\ pos q = pos p /\ end_ q = end_ p.
Proof.
  induction xs as [|x rest IH]; intros p ys s s1 Ip Hp Hm.
  - simpl in Hm. unfold ret in Hm. injection Hm as <- <-.
    pose proof (Cons_iterator_nil_inv p Ip Hp) as Hnil.
    exists p. rewrite (Cons_map_heads_unset f p s Hnil), Nat.add_0_r.
    repeat split; auto.
  - apply Cons_iterator_cons_inv in Hp as (Hc & -> & d & Ed & Hd).
    simpl in Hm. unfold bind in Hm.
    destruct (f (Cons_car p) s) as [[y|err] s'] eqn:Ef; [|discriminate].
    destruct (mapM f rest s') as [[ys'|err] s''] eqn:Em; [|discriminate].
    unfold ret in Hm. injection Hm as <- <-.
    pose proof (Cons_cdr_instanceof p d Ed) as Id.
    destruct (IH d ys' s' s'' Id Hd Em) as (q' & Eq' & Iq' & Hq' & Hend & _).
    exists (Cons (s'' + List.length rest) (Some y) (Some q') (pos p) (end_ p)).
    split.
    { rewrite Cons_map_unfold, (is_cons_isNil p Hc).
      unfold bind, lift. cbv zeta. rewrite Ed, Ef.
      assert (Hrest : (if is_cons d then Cons_map f d else ret d) s'
                      = (Ok q', s'' + List.length rest)).
      { destruct (is_cons d) eqn:Hcd; [exact Eq'|].
        rewrite <- Eq'. symmetry. apply Cons_map_heads_unset.
        now apply instanceof_not_is_cons. }
      rewrite Hrest. unfold new_Cons. simpl. f_equal. lia. }
    split; [reflexivity|].
    split.
    { rewrite Cons_iterator_unfold.
      change (is_cons (Cons _ (Some y) (Some q') _ _)) with true. cbv iota.
      unfold Cons_cdr. simpl cdr_slot. cbv iota. rewrite Iq'. simpl rbind.
      rewrite Hq'. reflexivity. }
    split; [|split; reflexivity].
    cbn [List.length nth_cdr]. unfold Cons_cdr at 1. simpl cdr_slot. cbv iota.
    rewrite Iq', Ed. simpl rbind. exact Hend.
Qed.

(** ** The budget error is never returned

    [out_of_fuel] is no error of the source; the recursion equations above
    already determine every result, and none of them is that error. *)

Lemma Cons_cdr_fuel_free (u : U) : Cons_cdr u <> Throw out_of_fuel.
Proof.
  intro H. apply Cons_cdr_throw in H. discriminate.
Qed.

Lemma equals_flat_fuel_free (a b : U) :
  is_cons b = false -> equals a b <> Throw out_of_fuel.
Proof.
  intro Hb. destruct (equals_flat_total a b Hb) as [r ->]. discriminate.
Qed.

Lemma equals_fuel_free_joint (n : nat) :
  forall a, size a <= n ->
    (forall b, equal_cons_cons a b <> Throw out_of_fuel)
    /\ (forall b, equals a b <> Throw out_of_fuel).
Proof.
  induction n as [|k IH]; intros a Hn; [pose proof (size_pos a); lia|].
  assert (Hloop : forall b, equal_cons_cons a b <> Throw out_of_fuel).
  { intro b. rewrite equal_cons_cons_unfold.
    destruct (is_cons a) eqn:Ha, (is_cons b) eqn:Hb; simpl; try discriminate.
    - pose proof (Cons_car_size a Ha).
      pose proof (proj2 (IH (Cons_car a) ltac:(lia)) (Cons_car b)) as Hcar.
      destruct (equals (Cons_car a) (Cons_car b)) as [[|]|err]; simpl;
        [|discriminate|exact Hcar].
      destruct (Cons_cdr a) as [a'|err] eqn:Ea; simpl;
        [|intros [= ->]; exact (Cons_cdr_fuel_free _ Ea)].
      destruct (Cons_cdr b) as [b'|err] eqn:Eb; simpl;
        [|intros [= ->]; exact (Cons_cdr_fuel_free _ Eb)].
      pose proof (Cons_cdr_size a a' Ha Ea).
      apply (proj1 (IH a' ltac:(lia))).
    - pose proof (equals_flat_fuel_free a b Hb) as Hflat.
      destruct (equals a b) as [[|]|err]; simpl; [discriminate .. | exact Hflat]. }
  split; [exact Hloop|].
  intro b. rewrite equals_unfold. destruct a as [|r x d p e]; [discriminate|].
  destruct (same _ _); [discriminate|].
  destruct (is_cons b); [apply Hloop|].
  destruct (is_atom b), (isNil b); discriminate.
Qed.

Lemma equals_fuel_free (a b : U) : equals a b <> Throw out_of_fuel.
Proof. exact (proj2 (equals_fuel_free_joint (size a) a (le_n _)) b). Qed.

Lemma Cons_length_fuel_free (n : nat) :
  forall this, size this <= n -> Cons_length this <> Throw out_of_fuel.
Proof.
  induction n as [|k IH]; intros this Hn; [pose proof (size_pos this); lia|].
  rewrite Cons_length_unfold. destruct (isNil this); [discriminate|].
  unfold Cons_argList.
  destruct (Cons_cdr this) as [b|err] eqn:Eb; simpl;
    [|intros [= ->]; exact (Cons_cdr_fuel_free _ Eb)].
  destruct (is_cons b) eqn:Hb; [|discriminate].
  pose proof (Cons_cdr_is_cons_size this b Eb Hb).
  pose proof (IH b ltac:(lia)) as Hlen.
  destruct (Cons_length b); simpl; [discriminate | exact Hlen].
Qed.

Lemma Cons_item_fuel_free (n : nat) :
  forall this index, size this <= n -> Cons_item this index <> Throw out_of_fuel.
Proof.
  induction n as [|k IH]; intros this index Hn; [pose proof (size_pos this); lia|].
  rewrite Cons_item_unfold.
  destruct ((0 <=? index)%Z && negb (isNil this)); [|discriminate].
  destruct (index =? 0)%Z; [discriminate|].
  unfold Cons_argList.
  destruct (Cons_cdr this) as [b|err] eqn:Eb; simpl;
    [|intros [= ->]; exact (Cons_cdr_fuel_free _ Eb)].
  destruct (is_cons b) eqn:Hb; [|discriminate].
  pose proof (Cons_cdr_is_cons_size this b Eb Hb).
  apply IH. lia.
Qed.

Lemma Cons_iterator_fuel_free (n : nat) :
  forall u, size u <= n -> Cons_iterator u <> Throw out_of_fuel.
Proof.
  induction n as [|k IH]; intros u Hn; [pose proof (size_pos u); lia|].
  rewrite Cons_iterator_unfold.
  destruct (is_cons u) eqn:Hu; [|discriminate].
  destruct (Cons_cdr u) as [d|err] eqn:Ed; simpl;
    [|intros [= ->]; exact (Cons_cdr_fuel_free _ Ed)].
  pose proof (Cons_cdr_size u d Hu Ed).
  pose proof (IH d ltac:(lia)) as Hd.
  destruct (Cons_iterator d); simpl; [discriminate | exact Hd].
Qed.

(** ** The scenarios of the test suite, run on the model *)

Example test_fixtures :
  new_Atom "foo" initial = (Ok foo, 2)
  /\ new_Atom "bar" 2 = (Ok bar, 3)
  /\ new_Atom "baz" 3 = (Ok baz, 4)
  /\ items_to_cons [foo] 4 = (Ok listX, 5)
  /\ items_to_cons [foo; bar] 5 = (Ok listY, 7)
  /\ items_to_cons [listX; bar] 7 = (Ok listZ, 9)
  /\ items_to_cons [foo; bar; baz] 9 = (Ok listW, 12).
Proof. repeat split. Qed.

Example test_predicates :
  is_nil nil = true
  /\ name nil = "Nil"%string /\ name foo = "Atom"%string /\ name listX = "Cons"%string
  /\ is_atom foo = true /\ is_atom nil = false /\ is_atom listX = false
  /\ is_cons foo = false /\ is_cons nil = false /\ is_cons listX = true
  /\ isCons nil = false /\ isCons listX = true
  /\ isNil nil = true /\ isNil listX = false.
Proof. repeat split. Qed.

Example test_car_cdr_length :
  Cons_car nil = nil /\ Cons_car listX = foo
  /\ Cons_cdr nil = Ok nil /\ Cons_cdr listX = Ok nil
  /\ Cons_length nil = Ok 0 /\ Cons_length listX = Ok 1 /\ Cons_length listY = Ok 2
  /\ car nil = nil /\ car listX = foo /\ cdr nil = Ok nil /\ cdr listX = Ok nil.
Proof. repeat split. Qed.

Example test_equal_cons_cons :
  equals nil nil = Ok true /\ equals nil listX = Ok false /\ equals nil listY = Ok false
  /\ equals listX nil = Ok false /\ equals listX listX = Ok true /\ equals listX listY = Ok false
  /\ equals listY nil = Ok false /\ equals listY listX = Ok false /\ equals listY listY = Ok true.
Proof. repeat split. Qed.

Example test_contains :
  contains nil foo = Ok false
  /\ contains listX foo = Ok true /\ contains listX bar = Ok false
  /\ contains listX listX = Ok true
  /\ contains listY foo = Ok true /\ contains listY bar = Ok true
  /\ contains listZ foo = Ok true /\ contains listZ bar = Ok true.
Proof. repeat split. Qed.

Example test_equals :
  equals listX foo = Ok false /\ equals listX bar = Ok false /\ equals listX listX = Ok true
  /\ equals listX listY = Ok false /\ equals listY foo = Ok false /\ equals listY bar = Ok false
  /\ equals listZ foo = Ok false /\ equals listZ bar = Ok false.
Proof. repeat split. Qed.

Example test_accessors :
  Cons_base listW = Ok bar /\ Cons_expo listW = Ok baz /\ Cons_head listW = foo
  /\ Cons_tail listW = Ok [bar; baz]
  /\ Cons_opr listW = Ok foo /\ Cons_arg listW = Ok bar
  /\ Cons_lhs listW = Ok bar /\ Cons_rhs listW = Ok baz
  /\ Cons_item listW 0 = Ok foo /\ Cons_item listW 1 = Ok bar /\ Cons_item listW 2 = Ok baz.
Proof. repeat split. Qed.

Example test_empty :
  isNil (Cons 12 None None (Some 23%Z) (Some 26%Z)) = true
  /\ isCons (Cons 12 None None (Some 23%Z) (Some 26%Z)) = false
  /\ equals (Cons 12 None None (Some 23%Z) (Some 26%Z)) nil = Ok true
  /\ Cons_length (Cons 12 None None (Some 23%Z) (Some 26%Z)) = Ok 0
  /\ is_nil (Cons 12 None None (Some 23%Z) (Some 26%Z)) = true
  /\ cdr (Cons 12 None None (Some 23%Z) (Some 26%Z)) = Ok nil.
Proof. repeat split. Qed.

(** The second copy's own test of [equal_cons_cons], with a budget of 20
    steps. *)
Example test_identity_copy_equal_cons_cons :
  IdentityNil.equal_cons_cons_fuel 20 nil nil = Ok true
  /\ IdentityNil.equal_cons_cons_fuel 20 nil listX = Ok false
  /\ IdentityNil.equal_cons_cons_fuel 20 nil listY = Ok false
  /\ IdentityNil.equal_cons_cons_fuel 20 listX nil = Ok false
  /\ IdentityNil.equal_cons_cons_fuel 20 listX listX = Ok true
  /\ IdentityNil.equal_cons_cons_fuel 20 listX listY = Ok false
  /\ IdentityNil.equal_cons_cons_fuel 20 listY nil = Ok false
  /\ IdentityNil.equal_cons_cons_fuel 20 listY listX = Ok false
  /\ IdentityNil.equal_cons_cons_fuel 20 listY listY = Ok true
  /\ IdentityNil.is_nil_fuel 20 nil = Ok true
  /\ IdentityNil.is_cons_fuel 20 foo = Ok false
  /\ IdentityNil.is_cons_fuel 20 nil = Ok false
  /\ IdentityNil.is_cons_fuel 20 listX = Ok true.
Proof. repeat split. Qed.

(** * The statements of the specification *)

(** ** C1: the sentinel and [equals] *)

(** In the first copy of the module (lines 1-412) [is_nil(x)] and
    [x.equals(nil)] agree on every handle, and a pair node without a head is
    equal to the sentinel in both directions, whatever its address, its rest
    slot and its source range. *)
Theorem is_nil_equals_nil :
  (forall x, equals x nil = Ok (is_nil x))
  /\ (forall r d p e,
        equals (Cons r None d p e) nil = Ok true
        /\ equals nil (Cons r None d p e) = Ok true).
Proof.
  split.
  - exact equals_nil_isNil.
  - intros r d p e. split.
    + now rewrite equals_nil_isNil.
    + now rewrite equals_sym, equals_nil_isNil.
Qed.

Lemma identity_copy_heads_unset (h : U) (n : nat) :
  instanceof_Cons h = true -> h <> nil ->
  IdentityNil.equals_fuel (4 + n) h nil = Ok false
  /\ IdentityNil.is_nil_fuel (5 + n) h = Ok false
  /\ IdentityNil.is_cons_fuel (6 + n) h = Ok true
  /\ IdentityNil.equals_fuel (8 + n) nil h = Ok false.
Proof.
  intros Ih Hne.
  assert (Hs : same h nil = false) by now apply same_neq.
  assert (Hs' : same nil h = false) by (rewrite same_sym; exact Hs).
  assert (Heq : forall k, IdentityNil.equals_fuel (S (S (S (S k)))) h nil
                          = Ok false).
  { intro k. destruct h as [|r a d p e]; [discriminate|].
    cbn [IdentityNil.equals_fuel]. now rewrite Hs. }
  assert (Hcons : forall k, IdentityNil.is_cons_fuel
                              (S (S (S (S (S (S k)))))) h = Ok true).
  { intro k. cbn [IdentityNil.is_cons_fuel IdentityNil.is_nil_fuel].
    now rewrite Ih, Heq. }
  cbn [Nat.add].
  split; [apply Heq|]. split; [apply Heq|]. split; [apply Hcons|].
  cbn [IdentityNil.equals_fuel]. fold nil. rewrite Hs', Hcons. cbn [rbind].
  cbn [IdentityNil.equal_cons_cons_fuel].
  change (IdentityNil.is_cons_fuel (S (S (S (S (S (S n)))))) nil)
    with (@Ok bool false).
  cbn [rbind andb]. now rewrite Hcons.
Qed.

(** C1, on the second copy of the module (lines 413-814): the test suite's
    [new Cons(void 0, void 0, 23, 26)], allocated right after the sentinel,
    answers [isNil()] with true and is named ["Nil"], yet neither
    [empty.equals(nil)], [nil.equals(empty)] nor [is_nil(empty)] is true,
    and [is_cons(empty)] is: the claim fails there.  The same holds of every
    pair node without a head other than the sentinel. *)
Theorem C1_identity_copy_fresh_empty :
  forall n,
    let empty := Cons 1 None None (Some 23%Z) (Some 26%Z) in
    new_Cons None None (Some 23%Z) (Some 26%Z) initial = (Ok empty, 2)
    /\ isNil empty = true
    /\ name empty = "Nil"%string
    /\ IdentityNil.equals_fuel (4 + n) empty nil = Ok false
    /\ IdentityNil.equals_fuel (8 + n) nil empty = Ok false
    /\ IdentityNil.is_nil_fuel (5 + n) empty = Ok false
    /\ IdentityNil.is_cons_fuel (6 + n) empty = Ok true
    /\ (forall r d p e,
          Cons r None d p e <> nil ->
          isNil (Cons r None d p e) = true
          /\ IdentityNil.equals_fuel (4 + n) (Cons r None d p e) nil = Ok false
          /\ IdentityNil.equals_fuel (8 + n) nil (Cons r None d p e) = Ok false).
Proof.
  intro n. cbv zeta.
  destruct (identity_copy_heads_unset
              (Cons 1 None None (Some 23%Z) (Some 26%Z)) n eq_refl)
    as (H1 & H2 & H3 & H4); [discriminate|].
  do 7 (split; [first [reflexivity | assumption]|]).
  intros r d p e Hne.
  destruct (identity_copy_heads_unset (Cons r None d p e) n eq_refl Hne)
    as (G1 & _ & _ & G4).
  repeat split; assumption.
Qed.

(** ** C2: structural equality *)

Lemma chain_same_false (p e p' e' : option Z) (s s' : alloc) (x y : U) (xs ys : list U) :
  s + List.length (x :: xs) <= s' ->
  same (chain p e s nil (x :: xs)) (chain p' e' s' nil (y :: ys)) = false.
Proof.
  intro H. apply same_neq. cbn [chain]. intros [= Href _]. simpl in H. lia.
Qed.

(** C2. [equals] is reflexive and symmetric on all handles; two lists built
    by [items_to_cons] from pairwise equal items are equal, also when the
    second is built after the first and so shares no node with it; pair
    nodes of different length, built by [items_to_cons] or not, are never
    equal; an atom and a non-empty pair node are unequal in both
    directions. *)
Theorem C2_equals_reflexive_symmetric_structural :
  (forall x, equals x x = Ok true)
  /\ (forall a b, equals a b = equals b a)
  /\ (forall xs ys s1 s2,
        Forall2 (fun x y => equals x y = Ok true) xs ys ->
        exists c1 c2,
          items_to_cons xs s1 = (Ok c1, s1 + List.length xs)
          /\ items_to_cons ys s2 = (Ok c2, s2 + List.length ys)
          /\ equals c1 c2 = Ok true
          /\ (xs <> [] -> s1 + List.length xs <= s2 -> same c1 c2 = false))
  /\ (forall xs ys s1 s2,
        List.length xs <> List.length ys ->
        exists c1 c2,
          items_to_cons xs s1 = (Ok c1, s1 + List.length xs)
          /\ items_to_cons ys s2 = (Ok c2, s2 + List.length ys)
          /\ equals c1 c2 <> Ok true)
  /\ (forall p q n m,
        instanceof_Cons p = true -> instanceof_Cons q = true ->
        Cons_length p = Ok n -> Cons_length q = Ok m -> n <> m ->
        equals p q <> Ok true)
  /\ (forall a p,
        instanceof_Atom a = true -> is_cons p = true ->
        equals a p = Ok false /\ equals p a = Ok false).
Proof.
  assert (Hlen : forall p q n m,
             instanceof_Cons p = true -> instanceof_Cons q = true ->
             Cons_length p = Ok n -> Cons_length q = Ok m -> n <> m ->
             equals p q <> Ok true).
  { intros p q n m Ip Iq Hp Hq Hnm Heq.
    pose proof (equals_true_length p q Ip Iq Heq) as H.
    rewrite Hp, Hq in H. now injection H. }
  split; [exact equals_refl|].
  split; [exact equals_sym|].
  split; [|split; [|split; [exact Hlen|]]].
  - intros xs ys s1 s2 H.
    exists (chain None None s1 nil xs), (chain None None s2 nil ys).
    rewrite !items_to_cons_chain.
    split; [reflexivity|]. split; [reflexivity|].
    split; [now apply equals_chains|].
    intros Hne Hs. destruct H as [|x y xs ys _ _]; [now elim Hne|].
    now apply chain_same_false.
  - intros xs ys s1 s2 Hne.
    exists (chain None None s1 nil xs), (chain None None s2 nil ys).
    rewrite !items_to_cons_chain.
    split; [reflexivity|]. split; [reflexivity|].
    apply (Hlen _ _ (List.length xs) (List.length ys));
      auto using chain_instanceof, chain_length.
  - intros a p Ia Hp. apply equals_Atom_Cons; auto using is_cons_instanceof.
Qed.

(** An instance of C2: two one-element lists built one after the other from
    two atoms of the same value are equal and are different objects. *)
Lemma C2_witness :
  let foo := Atom 1 "foo" in
  let foo' := Atom 3 "foo" in
  Forall2 (fun x y => equals x y = Ok true) [foo] [foo']
  /\ exists c1 c2,
      items_to_cons [foo] 2 = (Ok c1, 2 + 1)
      /\ items_to_cons [foo'] 4 = (Ok c2, 4 + 1)
      /\ equals c1 c2 = Ok true
      /\ same c1 c2 = false.
Proof.
  cbv zeta.
  assert (H : Forall2 (fun x y => equals x y = Ok true)
                [Atom 1 "foo"] [Atom 3 "foo"])
    by (repeat constructor).
  split; [exact H|].
  destruct (proj1 (proj2 (proj2 C2_equals_reflexive_symmetric_structural))
              [Atom 1 "foo"] [Atom 3 "foo"] 2 4 H)
    as (c1 & c2 & H1 & H2 & Heq & Hsame).
  exists c1, c2. repeat split; try assumption.
  apply Hsame; [discriminate | simpl; lia].
Defined.

(** ** C3: [items_to_cons] and [item] *)

(** C3. [items_to_cons] of no item is the sentinel; of [n] items it is a
    chain of length [n] whose [n]-th [cdr] is the sentinel and whose
    elements are the items in their order; [item(i)] is the very item at
    position [i] for [0 <= i < n] and throws the index error for every other
    integer [i]. *)
Theorem C3_items_to_cons_item :
  forall (items : list U) (s : alloc),
    items_to_cons [] s = (Ok nil, s)
    /\ exists c,
        items_to_cons items s = (Ok c, s + List.length items)
        /\ Cons_length c = Ok (List.length items)
        /\ nth_cdr (List.length items) c = Ok nil
        /\ Cons_iterator c = Ok items
        /\ (forall i x, nth_error items i = Some x ->
                        Cons_item c (Z.of_nat i) = Ok x)
        /\ (forall i : Z, (i < 0 \/ Z.of_nat (List.length items) <= i)%Z ->
                          Cons_item c i = Throw IndexError).
Proof.
  intros items s. split.
  - rewrite items_to_cons_chain. simpl. now rewrite Nat.add_0_r.
  - exists (chain None None s nil items). rewrite items_to_cons_chain.
    split; [reflexivity|].
    split; [apply chain_length|].
    split; [apply chain_nth_cdr|].
    split; [apply chain_iterator|].
    split.
    + intros i x Hx. rewrite chain_item.
      assert (H0 : (0 <=? Z.of_nat i)%Z = true) by (apply Z.leb_le; lia).
      now rewrite H0, Nat2Z.id, Hx.
    + intros i Hi. rewrite chain_item.
      destruct (0 <=? i)%Z eqn:H0; [|reflexivity].
      apply Z.leb_le in H0.
      assert (Hn : nth_error items (Z.to_nat i) = None)
        by (apply nth_error_None; lia).
      now rewrite Hn.
Qed.

(** ** C4: the positional accessors *)

Lemma Cons_item_0 (p : U) : isNil p = false -> Cons_item p 0 = Ok (Cons_car p).
Proof. intro H. rewrite Cons_item_unfold. now rewrite H. Qed.

Lemma item_1_base (p v : U) : Cons_item p 1 = Ok v -> Cons_base p = Ok v.
Proof.
  intro H. apply Cons_item_Ok_inv in H as [_ [[H _] | [_ (d & Ed & Hd & H)]]];
    [discriminate|].
  apply Cons_item_Ok_inv in H as [_ [[_ ->] | [H _]]]; [|lia].
  unfold Cons_base, Cons_argList, Cons_head. now rewrite Ed.
Qed.

Lemma item_2_expo (p v : U) : Cons_item p 2 = Ok v -> Cons_expo p = Ok v.
Proof.
  intro H. apply Cons_item_Ok_inv in H as [_ [[H _] | [_ (d & Ed & Hd & H)]]];
    [discriminate|].
  apply item_1_base in H. unfold Cons_base, Cons_argList, Cons_head in H.
  unfold Cons_expo. now rewrite Ed.
Qed.

(** C4, as the code has it.  [opr], [arg], [lhs] and [rhs] are [item(0)],
    [item(1)], [item(1)] and [item(2)], errors included.  [base] and [expo]
    return what [item(1)] and [item(2)] return whenever these succeed; on a
    list built by [items_to_cons] that is too short for the position they
    return the sentinel, where [item] throws the index error. *)
Theorem C4_positional_accessors :
  (forall p,
      Cons_opr p = Cons_item p 0 /\ Cons_arg p = Cons_item p 1
      /\ Cons_lhs p = Cons_item p 1 /\ Cons_rhs p = Cons_item p 2)
  /\ (forall p v, Cons_item p 1 = Ok v -> Cons_base p = Ok v)
  /\ (forall p v, Cons_item p 2 = Ok v -> Cons_expo p = Ok v)
  /\ (forall items s,
        exists c,
          items_to_cons items s = (Ok c, s + List.length items)
          /\ (List.length items <= 1 ->
              Cons_item c 1 = Throw IndexError /\ Cons_base c = Ok nil)
          /\ (List.length items <= 2 ->
              Cons_item c 2 = Throw IndexError /\ Cons_expo c = Ok nil)).
Proof.
  split; [intro p; repeat split|].
  split; [exact item_1_base|].
  split; [exact item_2_expo|].
  intros items s. exists (chain None None s nil items).
  rewrite items_to_cons_chain. split; [reflexivity|].
  split; intro H; (split; [rewrite chain_item|]).
  - destruct items as [|x [|y rest]]; [reflexivity .. | simpl in H; lia].
  - destruct items as [|x [|y rest]]; [reflexivity .. | simpl in H; lia].
  - destruct items as [|x [|y [|z rest]]]; [reflexivity .. | simpl in H; lia].
  - destruct items as [|x [|y [|z rest]]]; [reflexivity .. | simpl in H; lia].
Qed.

(** C4 as stated fails: on the one-element list [items_to_cons(foo)],
    [item(1)] and [item(2)] throw the index error while [base] and [expo]
    return the sentinel. *)
Lemma C4_counterexample :
  let foo := Atom 1 "foo" in
  exists X,
    items_to_cons [foo] 2 = (Ok X, 3)
    /\ Cons_item X 1 = Throw IndexError /\ Cons_base X = Ok nil
    /\ Cons_item X 2 = Throw IndexError /\ Cons_expo X = Ok nil.
Proof.
  exists (Cons 2 (Some (Atom 1 "foo")) (Some nil) None None).
  repeat split.
Qed.

(** An instance of C4: on the list of [foo], [bar], [baz], [base] is [bar]
    and [expo] is [baz]. *)
Lemma C4_witness :
  let foo := Atom 1 "foo" in
  let bar := Atom 2 "bar" in
  let baz := Atom 3 "baz" in
  let X := chain None None 4 nil [foo; bar; baz] in
  Cons_item X 1 = Ok bar /\ Cons_base X = Ok bar /\ Cons_expo X = Ok baz.
Proof.
  cbv zeta. split; [reflexivity|]. split.
  - apply (proj1 (proj2 C4_positional_accessors)). reflexivity.
  - apply (proj1 (proj2 (proj2 C4_positional_accessors))). reflexivity.
Defined.

(** ** C5: [contains] *)

(** C5, as the code has it.  Every handle contains itself.  A pair node all
    of whose nodes with a head have a list-shaped rest slot — every list that
    [cons] and [items_to_cons] build from such handles — contains each of its
    elements and everything held, at any depth, by an element that is a pair
    node; so [items_to_cons(items_to_cons(a), b)] contains [a]. *)
Theorem C5_contains_self_elements_nested :
  (forall p, contains p p = Ok true)
  /\ (forall p i x,
        instanceof_Cons p = true -> proper p = true ->
        Cons_item p i = Ok x -> contains p x = Ok true)
  /\ (forall p x,
        instanceof_Cons p = true -> proper p = true ->
        held x p -> contains p x = Ok true)
  /\ (forall a b s,
        proper a = true -> proper b = true ->
        exists inner outer s1 s2,
          items_to_cons [a] s = (Ok inner, s1)
          /\ items_to_cons [inner; b] s1 = (Ok outer, s2)
          /\ contains outer a = Ok true).
Proof.
  split; [exact contains_refl|].
  split; [|split].
  - intros p i x Ip Pp Hx. apply contains_held; [|exact Pp].
    now apply (held_item x p i).
  - intros p x _ Pp H. now apply contains_held.
  - intros a b s Pa Pb.
    exists (chain None None s nil [a]),
           (chain None None (s + 1) nil [chain None None s nil [a]; b]),
           (s + 1), (s + 1 + 2).
    rewrite !items_to_cons_chain.
    split; [reflexivity|]. split; [reflexivity|].
    assert (Pin : proper (chain None None s nil [a]) = true)
      by (apply proper_chain; repeat constructor; exact Pa).
    apply contains_held.
    + apply (held_nested a _ (chain None None s nil [a]) 0);
        [reflexivity | apply Cons_item_0; reflexivity |].
      apply (held_item a _ 0); [reflexivity | apply Cons_item_0; reflexivity].
    + apply proper_chain. repeat constructor; assumption.
Qed.

(** C5 as stated fails: [new Cons(foo, undefined)] holds [foo] as its element
    0 and does not contain it. *)
Lemma C5_counterexample :
  let foo := Atom 1 "foo" in
  let p := Cons 2 (Some foo) None None None in
  new_Atom "foo" initial = (Ok foo, 2)
  /\ new_Cons (Some foo) None None None 2 = (Ok p, 3)
  /\ Cons_item p 0 = Ok foo
  /\ Cons_iterator p = Ok [foo]
  /\ Cons_length p = Ok 1
  /\ contains p foo = Ok false.
Proof. repeat split. Qed.

(** An instance of C5: the list of the list of [foo], and of [bar],
    contains [foo]. *)
Lemma C5_witness :
  let foo := Atom 1 "foo" in
  let bar := Atom 2 "bar" in
  let X := chain None None 3 nil [foo] in
  let Z := chain None None 4 nil [X; bar] in
  proper Z = true /\ held foo Z /\ contains Z foo = Ok true.
Proof.
  cbv zeta.
  assert (H : held (Atom 1 "foo")
                (chain None None 4 nil
                   [chain None None 3 nil [Atom 1 "foo"]; Atom 2 "bar"])).
  { apply (held_nested _ _ (chain None None 3 nil [Atom 1 "foo"]) 0);
      [reflexivity | reflexivity |].
    apply (held_item _ _ 0); reflexivity. }
  split; [reflexivity|]. split; [exact H|].
  apply (proj1 (proj2 (proj2 C5_contains_self_elements_nested)));
    [reflexivity | reflexivity | exact H].
Defined.

(** ** C6: [tail] *)

(** C6. [tail()] of the list built from [x1 .. xn], [n >= 1], is the list
    [x2 .. xn] of the very same items; on the sentinel it throws the
    empty-list error.  [tail] reads its receiver only: it takes and returns
    no allocation state. *)
Theorem C6_tail_of_items_to_cons :
  (forall (x : U) (rest : list U) (s : alloc),
      exists c,
        items_to_cons (x :: rest) s = (Ok c, s + List.length (x :: rest))
        /\ Cons_tail c = Ok (List.tl (x :: rest)))
  /\ Cons_tail nil = Throw EmptyListError.
Proof.
  split; [|reflexivity].
  intros x rest s. exists (chain None None s nil (x :: rest)).
  rewrite items_to_cons_chain. split; [reflexivity|]. apply chain_tail.
Qed.

(** ** C7: [cons] *)

(** C7. [cons(car, cdr)] returns a pair node exactly when [cdr] is a [Cons]
    (the sentinel included): the node is the one allocated at the next free
    address, its head is [car] and its rest is [cdr].  For any other [cdr]
    it throws and allocates nothing. *)
Theorem C7_cons_succeeds_iff_rest_is_Cons :
  forall (head rest : U) (p e : option Z) (s : alloc),
    (instanceof_Cons rest = true ->
     exists node,
       cons head rest p e s = (Ok node, S s)
       /\ node = Cons s (Some head) (Some rest) p e
       /\ Cons_car node = head /\ Cons_cdr node = Ok rest)
    /\ (instanceof_Cons rest = false ->
        cons head rest p e s = (Throw ShapeError, s))
    /\ ((exists node s', cons head rest p e s = (Ok node, s'))
        <-> instanceof_Cons rest = true)
    /\ cons head nil p e s = (Ok (Cons s (Some head) (Some nil) p e), S s).
Proof.
  intros head rest p e s. unfold cons.
  destruct (instanceof_Cons rest) eqn:Hr; repeat split; try discriminate.
  - exists (Cons s (Some head) (Some rest) p e).
    repeat split. unfold Cons_cdr. simpl. now rewrite Hr.
  - exists (Cons s (Some head) (Some rest) p e), (S s). reflexivity.
  - intros (node & s' & H). discriminate.
Qed.

(** An instance of C7: [cons(foo, nil)] allocates the pair,
    [cons(foo, foo)] throws and allocates nothing. *)
Lemma C7_witness :
  let foo := Atom 1 "foo" in
  (exists node, cons foo nil None None 2 = (Ok node, 3)
                /\ node = Cons 2 (Some foo) (Some nil) None None
                /\ Cons_car node = foo /\ Cons_cdr node = Ok nil)
  /\ cons foo foo None None 2 = (Throw ShapeError, 2).
Proof.
  cbv zeta. split.
  - apply (proj1 (C7_cons_succeeds_iff_rest_is_Cons
                    (Atom 1 "foo") nil None None 2)). reflexivity.
  - apply (proj1 (proj2 (C7_cons_succeeds_iff_rest_is_Cons
                           (Atom 1 "foo") (Atom 1 "foo") None None 2))).
    reflexivity.
Defined.

(** ** C8: the free [car] and [cdr] *)

(** C8. On a handle whose rest slots are all list-shaped, [car] and [cdr]
    return: for a non-empty pair node the stored head, and the stored rest
    (the sentinel when the rest slot is unset); for the sentinel, any other
    pair node without a head, and an atom, the sentinel.  [cdr] never takes
    the error branch of the getter. *)
Theorem C8_car_cdr_never_fail :
  forall x : U,
    list_shaped x = true ->
    (is_cons x = true ->
     exists h, car_slot x = Some h /\ car x = h
               /\ cdr x = Ok (match cdr_slot x with Some d => d | None => nil end))
    /\ (is_cons x = false -> car x = nil /\ cdr x = Ok nil)
    /\ (forall err, cdr x <> Throw err).
Proof.
  intros x Lx.
  assert (Hcdr : is_cons x = true ->
                 cdr x = Ok (match cdr_slot x with Some d => d | None => nil end)).
  { intro Hx. unfold cdr. rewrite Hx.
    apply is_cons_inv in Hx as (r & a & d & p & e & ->).
    unfold Cons_cdr. simpl in *. destruct d as [d|]; [|reflexivity].
    apply andb_prop in Lx as [_ Ld]. apply andb_prop in Ld as [-> _].
    reflexivity. }
  split; [|split].
  - intro Hx. pose proof (Hcdr Hx) as Hd. unfold car. rewrite Hx.
    apply is_cons_inv in Hx as (r & a & d & p & e & ->).
    exists a. repeat split. exact Hd.
  - intro Hx. unfold car, cdr. now rewrite Hx.
  - intros err. destruct (is_cons x) eqn:Hx.
    + rewrite (Hcdr eq_refl). discriminate.
    + unfold cdr. rewrite Hx. discriminate.
Qed.

(** An instance of C8: the one-element list of [foo]. *)
Lemma C8_witness :
  let foo := Atom 1 "foo" in
  let X := Cons 2 (Some foo) (Some nil) None None in
  list_shaped X = true
  /\ ((is_cons X = true ->
       exists h, car_slot X = Some h /\ car X = h
                 /\ cdr X = Ok (match cdr_slot X with Some d => d | None => nil end))
      /\ (is_cons X = false -> car X = nil /\ cdr X = Ok nil)
      /\ (forall err, cdr X <> Throw err)).
Proof.
  cbv zeta. split; [reflexivity|].
  apply (C8_car_cdr_never_fail (Cons 2 (Some (Atom 1 "foo")) (Some nil) None None)).
  reflexivity.
Defined.

(** ** C9: [map] *)

(** C9. Mapping the sentinel returns the sentinel and allocates nothing.
    For a pair node [p] whose elements are [xs], and a function [f] whose
    calls on [xs], made in order, return [ys], [p.map(f)] returns a pair
    node of the length of [p] whose elements are [ys] in that order (so, for
    a function [f] that computes [g] without allocating, [g] of each element
    in turn); the new node ends, after as many [cdr] steps, in the very
    handle in which [p] ends, and carries the source range of [p]. *)
Theorem C9_map_preserves_length_and_order :
  (forall f s, Cons_map f nil s = (Ok nil, s))
  /\ (forall (f : U -> M U) (p : U) (xs ys : list U) (s s1 : alloc),
        instanceof_Cons p = true ->
        Cons_iterator p = Ok xs ->
        mapM f xs s = (Ok ys, s1) ->
        exists q,
          Cons_map f p s = (Ok q, s1 + List.length xs)
          /\ Cons_length p = Ok (List.length xs)
          /\ Cons_length q = Ok (List.length xs)
          /\ Cons_iterator q = Ok ys
          /\ (forall i y, nth_error ys i = Some y ->
                          Cons_item q (Z.of_nat i) = Ok y)
          /\ nth_cdr (List.length xs) q = nth_cdr (List.length xs) p
          /\ pos q = pos p /\ end_ q = end_ p
          /\ (forall g, (forall a, f a = ret (g a)) -> ys = List.map g xs)).
Proof.
  split; [intros f s; now apply Cons_map_heads_unset|].
  intros f p xs ys s s1 Ip Hp Hm.
  destruct (Cons_map_elements f xs p ys s s1 Ip Hp Hm)
    as (q & Eq & Iq & Hq & Hend & Hpos & Hendr).
  pose proof (mapM_length f xs ys s s1 Hm) as Hlen.
  exists q.
  split; [exact Eq|].
  split; [now apply iterator_length|].
  split; [rewrite <- Hlen; now apply iterator_length|].
  split; [exact Hq|].
  split.
  { intros i y Hy. rewrite (iterator_item ys q (Z.of_nat i) Iq Hq).
    assert (H0 : (0 <=? Z.of_nat i)%Z = true) by (apply Z.leb_le; lia).
    now rewrite H0, Nat2Z.id, Hy. }
  split; [exact Hend|]. split; [exact Hpos|]. split; [exact Hendr|].
  intros g Hg.
  assert (Hf : mapM f xs s = mapM (fun a => ret (g a)) xs s).
  { clear - Hg. revert s. induction xs as [|x rest IH]; intro s; [reflexivity|].
    simpl. unfold bind. rewrite Hg. unfold ret at 1 3.
    now rewrite IH. }
  rewrite Hf, mapM_pure in Hm. now injection Hm.
Qed.

(** An instance of C9: mapping the list of [foo], [bar] with a function
    that allocates a new atom at each call. *)
Lemma C9_witness :
  let foo := Atom 1 "foo" in
  let bar := Atom 2 "bar" in
  let p := chain None None 3 nil [foo; bar] in
  let f := fun _ : U => new_Atom "mapped" in
  let ys := [Atom 5 "mapped"; Atom 6 "mapped"] in
  instanceof_Cons p = true
  /\ Cons_iterator p = Ok [foo; bar]
  /\ mapM f [foo; bar] 5 = (Ok ys, 7)
  /\ exists q, Cons_map f p 5 = (Ok q, 9) /\ Cons_iterator q = Ok ys.
Proof.
  cbv zeta.
  split; [reflexivity|]. split; [reflexivity|]. split; [reflexivity|].
  destruct (proj2 C9_map_preserves_length_and_order
              (fun _ : U => new_Atom "mapped")
              (chain None None 3 nil [Atom 1 "foo"; Atom 2 "bar"])
              [Atom 1 "foo"; Atom 2 "bar"]
              [Atom 5 "mapped"; Atom 6 "mapped"] 5 7
              eq_refl eq_refl eq_refl)
    as (q & Hq & _ & _ & Hys & _).
  exists q. split; [exact Hq | exact Hys].
Defined.

(** ** C10: a rest slot that is not a [Cons] *)

Lemma equal_cons_cons_cdr_throws (p q : U) :
  is_cons p = true -> is_cons q = true ->
  equals (Cons_car p) (Cons_car q) = Ok true ->
  (Cons_cdr p = Throw ShapeError
   \/ Cons_cdr q = Throw ShapeError) ->
  equal_cons_cons p q = Throw ShapeError.
Proof.
  intros Hp Hq Hcar Hthrow.
  rewrite equal_cons_cons_unfold, Hp, Hq. simpl. rewrite Hcar.
  destruct Hthrow as [-> | Hq']; [reflexivity|].
  rewrite Hq'. destruct (Cons_cdr p) as [p'|err] eqn:E; [reflexivity|].
  apply Cons_cdr_throw in E. now subst.
Qed.

(** C10, as the code has it.  The constructor stores a rest that is not a
    [Cons], where [cons] refuses it.  On the resulting node with a head the
    [cdr] getter, the free [cdr], [length], [item(i)] for [i >= 1], [base],
    [expo], the iterator, [map], and [equals] against a different non-empty
    pair node with an equal head all throw the getter's error; [item(0)]
    returns the head, [tail()] returns the empty collection and
    [p.equals(p)] is true.  The [cdr] getter throws also when the node has
    no head. *)
Theorem C10_rest_checked_at_access :
  forall (a b : U) (pp e : option Z) (s : alloc),
    instanceof_Cons b = false ->
    new_Cons (Some a) (Some b) pp e s = (Ok (Cons s (Some a) (Some b) pp e), S s)
    /\ cons a b pp e s = (Throw ShapeError, s)
    /\ (forall head, Cons_cdr (Cons s head (Some b) pp e) = Throw ShapeError)
    /\ cdr (Cons s (Some a) (Some b) pp e) = Throw ShapeError
    /\ Cons_length (Cons s (Some a) (Some b) pp e) = Throw ShapeError
    /\ (forall i, (0 < i)%Z ->
                  Cons_item (Cons s (Some a) (Some b) pp e) i = Throw ShapeError)
    /\ Cons_base (Cons s (Some a) (Some b) pp e) = Throw ShapeError
    /\ Cons_expo (Cons s (Some a) (Some b) pp e) = Throw ShapeError
    /\ Cons_iterator (Cons s (Some a) (Some b) pp e) = Throw ShapeError
    /\ (forall f t, Cons_map f (Cons s (Some a) (Some b) pp e) t
                    = (Throw ShapeError, t))
    /\ (forall q, is_cons q = true -> q <> Cons s (Some a) (Some b) pp e ->
                  equals a (Cons_car q) = Ok true ->
                  equals (Cons s (Some a) (Some b) pp e) q = Throw ShapeError
                  /\ equals q (Cons s (Some a) (Some b) pp e) = Throw ShapeError)
    /\ Cons_item (Cons s (Some a) (Some b) pp e) 0 = Ok a
    /\ Cons_tail (Cons s (Some a) (Some b) pp e) = Ok []
    /\ equals (Cons s (Some a) (Some b) pp e) (Cons s (Some a) (Some b) pp e)
       = Ok true.
Proof.
  intros a b pp e s Hb.
  set (p := Cons s (Some a) (Some b) pp e).
  assert (Hcdr : forall head, Cons_cdr (Cons s head (Some b) pp e) = Throw ShapeError)
    by (intro head; unfold Cons_cdr; simpl; now rewrite Hb).
  assert (Hp : Cons_cdr p = Throw ShapeError) by apply Hcdr.
  assert (Hbc : is_cons b = false) by (unfold is_cons; now rewrite Hb).
  split; [reflexivity|].
  split; [unfold cons; now rewrite Hb|].
  split; [exact Hcdr|].
  split; [unfold cdr; exact Hp|].
  split; [rewrite Cons_length_unfold; unfold Cons_argList; now rewrite Hp|].
  split.
  { intros i Hi. rewrite Cons_item_unfold. unfold Cons_argList. rewrite Hp.
    assert (H0 : (0 <=? i)%Z = true) by (apply Z.leb_le; lia).
    assert (H1 : (i =? 0)%Z = false) by (apply Z.eqb_neq; lia).
    now rewrite H0, H1. }
  split; [unfold Cons_base, Cons_argList; now rewrite Hp|].
  split; [unfold Cons_expo; now rewrite Hp|].
  split; [rewrite Cons_iterator_unfold; now rewrite Hp|].
  split.
  { intros f t. rewrite Cons_map_unfold. unfold bind, lift. simpl isNil.
    cbv iota zeta. now rewrite Hp. }
  split.
  { intros q Hq Hne Hcar. rewrite (equals_sym q p). rewrite equals_unfold.
    unfold p at 1. fold p.
    rewrite (same_neq p q (not_eq_sym Hne)), Hq.
    assert (H : equal_cons_cons p q = Throw ShapeError)
      by (apply equal_cons_cons_cdr_throws; auto).
    now rewrite H. }
  split; [now apply Cons_item_0|].
  split; [unfold Cons_tail; simpl; now rewrite Hbc|].
  apply equals_refl.
Qed.

(** C10 as stated fails: on [new Cons(foo, bar)], whose rest is an atom,
    [tail()] returns the empty collection, [item(0)] returns the head, and
    [equals] against a list with another head returns false; none of them
    throws. *)
Lemma C10_counterexample :
  let foo := Atom 1 "foo" in
  let bar := Atom 2 "bar" in
  let p := Cons 3 (Some foo) (Some bar) None None in
  let Y := chain None None 4 nil [bar] in
  new_Cons (Some foo) (Some bar) None None 3 = (Ok p, 4)
  /\ Cons_cdr p = Throw ShapeError
  /\ Cons_tail p = Ok []
  /\ Cons_item p 0 = Ok foo
  /\ equals p Y = Ok false
  /\ equals p p = Ok true.
Proof. repeat split. Qed.

(** An instance of C10: [new Cons(foo, bar)] with the atom [bar] as its
    rest. *)
Lemma C10_witness :
  let foo := Atom 1 "foo" in
  let bar := Atom 2 "bar" in
  let p := Cons 3 (Some foo) (Some bar) None None in
  instanceof_Cons bar = false
  /\ Cons_length p = Throw ShapeError
  /\ Cons_item p 1 = Throw ShapeError
  /\ Cons_tail p = Ok [].
Proof.
  cbv zeta.
  pose proof (C10_rest_checked_at_access
                (Atom 1 "foo") (Atom 2 "bar") None None 3 eq_refl)
    as (_ & _ & _ & _ & Hlen & Hitem & _ & _ & _ & _ & _ & _ & Htail & _).
  split; [reflexivity|]. split; [exact Hlen|].
  split; [apply Hitem; reflexivity | exact Htail].
Defined.

(** * Further properties of the module *)

(** ** [length], [item], [tail] and [is_singleton] against the iterator *)

Lemma length_iterator (n : nat) :
  forall p k, size p <= n -> instanceof_Cons p = true ->
              Cons_length p = Ok k ->
              exists xs, Cons_iterator p = Ok xs /\ List.length xs = k.
Proof.
  induction n as [|m IH]; intros p k Hn Ip Hk; [pose proof (size_pos p); lia|].
  rewrite Cons_length_unfold in Hk. rewrite Cons_iterator_unfold.
  unfold is_cons. rewrite Ip.
  destruct (isNil p) eqn:Hnil; simpl.
  - injection Hk as <-. now exists [].
  - unfold Cons_argList in Hk.
    destruct (Cons_cdr p) as [b|err] eqn:Eb; simpl in *; [|discriminate].
    pose proof (Cons_cdr_instanceof p b Eb) as Ib.
    destruct (is_cons b) eqn:Hb.
    + destruct (Cons_length b) as [r|err] eqn:Er; simpl in Hk; [|discriminate].
      injection Hk as <-.
      pose proof (Cons_cdr_is_cons_size p b Eb Hb).
      destruct (IH b r ltac:(lia) Ib Er) as (xs & -> & Hlen). simpl.
      exists (Cons_car p :: xs). split; [reflexivity|]. simpl. lia.
    + injection Hk as <-. rewrite Cons_iterator_unfold, Hb. simpl.
      now exists [Cons_car p].
Qed.

(** X2. For every [Cons] object, [length] returns [n] exactly when the
    iterator runs to its end and yields [n] elements; so [length] throws
    exactly when the iteration does. *)
Theorem length_counts_iterated_elements :
  forall (r : alloc) (a d : option U) (pp e : option Z) (n : nat),
    Cons_length (Cons r a d pp e) = Ok n
    <-> exists xs, Cons_iterator (Cons r a d pp e) = Ok xs /\ List.length xs = n.
Proof.
  intros r a d pp e n. split.
  - intro H. exact (length_iterator _ (Cons r a d pp e) n (le_n _) eq_refl H).
  - intros (xs & Hxs & <-). now apply iterator_length.
Qed.

(** X3. On a [Cons] object whose iteration yields [xs], [item(i)] is the
    element of [xs] at position [i] for [0 <= i < xs.length], by identity,
    and throws the index error for every other integer [i]. *)
Theorem item_indexes_iterated_elements :
  forall (p : U) (xs : list U),
    instanceof_Cons p = true ->
    Cons_iterator p = Ok xs ->
    (forall i x, nth_error xs i = Some x -> Cons_item p (Z.of_nat i) = Ok x)
    /\ (forall i : Z, (i < 0 \/ Z.of_nat (List.length xs) <= i)%Z ->
                      Cons_item p i = Throw IndexError).
Proof.
  intros p xs Ip Hp. split.
  - intros i x Hx. rewrite (iterator_item xs p _ Ip Hp).
    assert (H0 : (0 <=? Z.of_nat i)%Z = true) by (apply Z.leb_le; lia).
    now rewrite H0, Nat2Z.id, Hx.
  - intros i Hi. rewrite (iterator_item xs p _ Ip Hp).
    destruct (0 <=? i)%Z eqn:H0; [|reflexivity].
    apply Z.leb_le in H0.
    assert (Hn : nth_error xs (Z.to_nat i) = None)
      by (apply nth_error_None; lia).
    now rewrite Hn.
Qed.

(** An instance of X3: the list of [foo], [bar], [baz]. *)
Lemma item_indexes_iterated_elements_witness :
  Cons_iterator listW = Ok [foo; bar; baz]
  /\ Cons_item listW (Z.of_nat 2) = Ok baz
  /\ Cons_item listW 3 = Throw IndexError.
Proof.
  split; [reflexivity|].
  destruct (item_indexes_iterated_elements listW [foo; bar; baz]
              eq_refl eq_refl) as [Hin Hout].
  split; [now apply Hin | apply Hout; simpl; lia].
Defined.

(** X4. On a [Cons] object with a head whose iteration yields [xs],
    [tail()] returns [xs] without its first element. *)
Theorem tail_drops_first_iterated_element :
  forall (p : U) (xs : list U),
    instanceof_Cons p = true -> isNil p = false ->
    Cons_iterator p = Ok xs ->
    Cons_tail p = Ok (List.tl xs).
Proof.
  intros p xs Ip Hnil Hp.
  rewrite Cons_iterator_unfold in Hp. unfold is_cons in Hp.
  rewrite Ip, Hnil in Hp. simpl in Hp.
  unfold Cons_tail. rewrite Hnil.
  unfold Cons_cdr in Hp.
  destruct (cdr_slot p) as [d|].
  - destruct (instanceof_Cons d) eqn:Id; simpl in Hp; [|discriminate].
    destruct (Cons_iterator d) as [rest|err] eqn:Ed; simpl in Hp; [|discriminate].
    injection Hp as <-. simpl.
    destruct (is_cons d) eqn:Hd; [reflexivity|].
    rewrite Cons_iterator_unfold, Hd in Ed. now injection Ed as <-.
  - simpl in Hp. rewrite ?Cons_iterator_unfold in Hp. simpl in Hp.
    now injection Hp as <-.
Qed.

(** An instance of X4: the list of [foo], [bar], [baz]. *)
Lemma tail_drops_first_iterated_element_witness :
  Cons_iterator listW = Ok [foo; bar; baz] /\ Cons_tail listW = Ok [bar; baz].
Proof.
  split; [reflexivity|].
  exact (tail_drops_first_iterated_element listW [foo; bar; baz]
           eq_refl eq_refl eq_refl).
Defined.

Lemma length_is_cons_positive (b : U) (k : nat) :
  is_cons b = true -> Cons_length b = Ok k -> k <> 0.
Proof.
  intros Hb Hk ->. rewrite Cons_length_unfold, (is_cons_isNil b Hb) in Hk.
  unfold Cons_argList in Hk.
  destruct (Cons_cdr b) as [c|]; simpl in Hk; [|discriminate].
  destruct (is_cons c); [|discriminate].
  destruct (Cons_length c); simpl in Hk; [|discriminate].
  injection Hk. lia.
Qed.

(** X5. On every [Cons] object on which [length] returns, [is_singleton]
    returns whether that length is 1; and whenever [is_singleton] returns
    true, [length] returns 1.  [is_singleton] reads one rest slot only: it
    throws exactly on a node with a head whose own rest is not a [Cons]. *)
Theorem is_singleton_iff_length_one :
  forall (r : alloc) (a d : option U) (pp e : option Z),
    (forall n, Cons_length (Cons r a d pp e) = Ok n ->
               is_singleton (Cons r a d pp e) = Ok (Nat.eqb n 1))
    /\ (is_singleton (Cons r a d pp e) = Ok true ->
        Cons_length (Cons r a d pp e) = Ok 1)
    /\ (forall err, is_singleton (Cons r a d pp e) = Throw err
                    <-> isNil (Cons r a d pp e) = false
                        /\ Cons_cdr (Cons r a d pp e) = Throw err).
Proof.
  intros r a d pp e. set (p := Cons r a d pp e).
  assert (Hlen : Cons_length p =
                 if isNil p then Ok 0
                 else (b <- Cons_cdr p ;;
                       if is_cons b then (k <- Cons_length b ;; Ok (k + 1))
                       else Ok 1)%result)
    by apply Cons_length_unfold.
  unfold is_singleton. rewrite Hlen.
  destruct (isNil p) eqn:Hnil.
  { split; [intros n [= <-]; reflexivity|]. split; [discriminate|].
    intro err. split; [discriminate | intros [H _]; discriminate]. }
  destruct (Cons_cdr p) as [b|err0] eqn:Eb; simpl.
  2:{ split; [discriminate|]. split; [discriminate|].
      intro err. split; [intros [= ->]; now split | intros [_ [= ->]]; reflexivity]. }
  pose proof (Cons_cdr_instanceof p b Eb) as Ib.
  assert (Hb : is_cons b = negb (isNil b)) by (unfold is_cons; now rewrite Ib).
  rewrite Hb.
  destruct (isNil b) eqn:Hbn; simpl.
  { split; [intros n [= <-]; reflexivity|]. split; [reflexivity|].
    intro err. split; [discriminate | intros [_ H]; discriminate]. }
  split; [|split; [discriminate|]].
  - intros n Hn.
    destruct (Cons_length b) as [k|err1] eqn:Ek; simpl in Hn; [|discriminate].
    injection Hn as <-.
    assert (Hk : k <> 0)
      by (apply (length_is_cons_positive b k); [rewrite Hb; reflexivity | exact Ek]).
    f_equal. symmetry. apply Nat.eqb_neq. lia.
  - intro err. split; [discriminate | intros [_ H]; discriminate].
Qed.

(** ** Source ranges and rendering of built lists *)

Lemma chain_nth_cdr_skipn (p e : option Z) (s : alloc) (items : list U) :
  forall i, i <= List.length items ->
            nth_cdr i (chain p e s nil items) = Ok (chain p e s nil (skipn i items)).
Proof.
  induction items as [|x rest IH]; intros [|i] Hi; try reflexivity.
  - simpl in Hi. lia.
  - cbn [nth_cdr skipn]. rewrite chain_cdr. simpl rbind.
    apply IH. simpl in Hi. lia.
Qed.

Lemma equals_refl_all (items : list U) :
  Forall2 (fun x y => equals x y = Ok true) items items.
Proof.
  induction items; constructor; auto using equals_refl.
Qed.

(** X6. [pos_end_items_to_cons(pos, end, ...items)] yields the items in
    their order and stores [pos] and [end] on every node of the chain it
    allocates; the range plays no part in equality: the lists built from the
    same items with two different ranges, at different times, are
    [equals]. *)
Theorem pos_end_items_to_cons_range :
  forall (p e p' e' : option Z) (items : list U) (s s' : alloc),
    exists c c',
      pos_end_items_to_cons p e items s = (Ok c, s + List.length items)
      /\ pos_end_items_to_cons p' e' items s' = (Ok c', s' + List.length items)
      /\ Cons_iterator c = Ok items
      /\ (forall i, i < List.length items ->
                    exists node, nth_cdr i c = Ok node
                                 /\ is_cons node = true
                                 /\ pos node = p /\ end_ node = e)
      /\ equals c c' = Ok true /\ equals c' c = Ok true.
Proof.
  intros p e p' e' items s s'.
  exists (chain p e s nil items), (chain p' e' s' nil items).
  rewrite !pos_end_items_to_cons_chain.
  split; [reflexivity|]. split; [reflexivity|].
  split; [apply chain_iterator|].
  split.
  - intros i Hi. exists (chain p e s nil (skipn i items)).
    split; [apply chain_nth_cdr_skipn; lia|].
    assert (Hs : List.length (skipn i items) <> 0)
      by (rewrite length_skipn; lia).
    destruct (skipn i items) as [|x rest]; [now elim Hs|].
    repeat split.
  - split; apply equals_chains, equals_refl_all.
Qed.

Lemma toString_chain (p e : option Z) (s : alloc) (items : list U) :
  toString (chain p e s nil items) = nested items.
Proof.
  induction items as [|x rest IH]; [reflexivity|].
  cbn [chain toString nested]. now rewrite IH.
Qed.

(** X7. The list that [items_to_cons] (or [pos_end_items_to_cons]) builds
    from [x1 .. xn] renders as [(x1 (x2 ( ... (xn ()))))], each item by its
    own [toString]: one parenthesis pair per node, not the flat list
    syntax; the source range is not rendered. *)
Theorem toString_of_built_list :
  forall (p e : option Z) (items : list U) (s : alloc),
    exists c,
      pos_end_items_to_cons p e items s = (Ok c, s + List.length items)
      /\ toString c = nested items
      /\ String.length (toString c)
         = 2 + list_sum (List.map (fun x => 3 + String.length (toString x)) items).
Proof.
  intros p e items s. exists (chain p e s nil items).
  rewrite pos_end_items_to_cons_chain, toString_chain.
  split; [reflexivity|]. split; [reflexivity|].
  induction items as [|x rest IH]; [reflexivity|].
  cbn [nested List.map list_sum].
  assert (Happ : forall a b, String.length (a ++ b)
                             = String.length a + String.length b).
  { clear. induction a as [|c a IHa]; intro b; simpl; [reflexivity|].
    now rewrite IHa. }
  rewrite !Happ, IH. simpl String.length.
  unfold list_sum. cbn [fold_right]. fold (list_sum (List.map (fun x0 => 3 + String.length (toString x0)) rest)). lia.
Qed.

(** ** [cons] prepends *)

(** X8. For a rest [d] that is a [Cons] whose iteration yields [xs],
    [cons(a, d)] allocates one node [c] with [car(c) == a] and
    [cdr(c) == d] by identity, whose iteration yields [a] followed by [xs]
    and whose [length] is one more than that of [d]; [is_singleton(c)] holds
    exactly when [d] has no head. *)
Theorem cons_prepends :
  forall (a d : U) (p e : option Z) (s : alloc) (xs : list U),
    instanceof_Cons d = true ->
    Cons_iterator d = Ok xs ->
    exists c,
      cons a d p e s = (Ok c, S s)
      /\ car c = a /\ cdr c = Ok d
      /\ Cons_iterator c = Ok (a :: xs)
      /\ Cons_length c = Ok (S (List.length xs))
      /\ Cons_tail c = Ok xs
      /\ is_singleton c = Ok (isNil d).
Proof.
  intros a d p e s xs Id Hd.
  exists (Cons s (Some a) (Some d) p e).
  assert (Hcdr : Cons_cdr (Cons s (Some a) (Some d) p e) = Ok d)
    by (unfold Cons_cdr; simpl; now rewrite Id).
  assert (Hit : Cons_iterator (Cons s (Some a) (Some d) p e) = Ok (a :: xs)).
  { rewrite Cons_iterator_unfold.
    change (is_cons (Cons s (Some a) (Some d) p e)) with true. cbv iota.
    rewrite Hcdr. simpl rbind. now rewrite Hd. }
  split; [unfold cons; now rewrite Id|].
  split; [reflexivity|].
  split; [exact Hcdr|].
  split; [exact Hit|].
  split; [exact (iterator_length (a :: xs) (Cons s (Some a) (Some d) p e) eq_refl Hit)|].
  split.
  - unfold Cons_tail. simpl.
    destruct (is_cons d) eqn:Hc; [exact Hd|].
    rewrite Cons_iterator_unfold, Hc in Hd. now injection Hd as <-.
  - unfold is_singleton. simpl isNil. cbv iota. rewrite Hcdr. simpl.
    now destruct (isNil d).
Qed.

(** An instance of X8: [cons(baz, Y)] on the list [Y] of [foo], [bar]. *)
Lemma cons_prepends_witness :
  instanceof_Cons listY = true
  /\ Cons_iterator listY = Ok [foo; bar]
  /\ exists c, cons baz listY None None 12 = (Ok c, 13)
               /\ Cons_iterator c = Ok [baz; foo; bar].
Proof.
  split; [reflexivity|]. split; [reflexivity|].
  destruct (cons_prepends baz listY None None 12 [foo; bar] eq_refl eq_refl)
    as (c & Hc & _ & _ & Hit & _).
  exists c. split; [exact Hc | exact Hit].
Defined.

(** ** What never throws on list-shaped handles *)

Lemma iterator_total (n : nat) :
  forall u, size u <= n -> list_shaped u = true ->
            exists xs, Cons_iterator u = Ok xs.
Proof.
  induction n as [|m IH]; intros u Hn Lu; [pose proof (size_pos u); lia|].
  rewrite Cons_iterator_unfold.
  destruct (is_cons u) eqn:Hu; [|now exists []].
  destruct (list_shaped_cdr u Lu) as (d & Ed & Ld). rewrite Ed. simpl.
  pose proof (Cons_cdr_size u d Hu Ed).
  destruct (IH d ltac:(lia) Ld) as [xs ->]. simpl. eauto.
Qed.

(** X9. On handles all of whose rest slots are list-shaped, nothing throws:
    [equals] and [contains] return a boolean, the iteration of a handle runs
    to its end, and on a [Cons] object [length] returns the number of
    elements iterated and [is_singleton] returns a boolean. *)
Theorem nothing_throws_on_list_shaped :
  forall a b : U,
    list_shaped a = true -> list_shaped b = true ->
    (exists r, equals a b = Ok r)
    /\ (exists r, contains a b = Ok r)
    /\ (exists xs,
          Cons_iterator a = Ok xs
          /\ (instanceof_Cons a = true ->
              Cons_length a = Ok (List.length xs)
              /\ exists r, is_singleton a = Ok r)).
Proof.
  intros a b La Lb.
  split; [now apply equals_total|].
  split; [now apply contains_total|].
  destruct (iterator_total (size a) a (le_n _) La) as [xs Hxs].
  exists xs. split; [exact Hxs|].
  intro Ia. split; [now apply iterator_length|].
  unfold is_singleton. destruct (isNil a); [eauto|].
  destruct (list_shaped_cdr a La) as (d & -> & _). simpl.
  destruct (isNil d); eauto.
Qed.

(** An instance of X9: the list [Z] of the list [X] and [bar], against
    [foo]. *)
Lemma nothing_throws_on_list_shaped_witness :
  list_shaped listZ = true /\ list_shaped foo = true
  /\ (exists r, equals listZ foo = Ok r)
  /\ (exists r, contains listZ foo = Ok r).
Proof.
  split; [reflexivity|]. split; [reflexivity|].
  destruct (nothing_throws_on_list_shaped listZ foo eq_refl eq_refl)
    as (He & Hc & _).
  split; assumption.
Defined.

(** ** What [contains] finds *)

Lemma equals_of_same (p x : U) : same p x = true -> equals p x = Ok true.
Proof. intro H. apply same_eq in H. subst. apply equals_refl. Qed.

Lemma contains_sound (p : U) :
  forall x, contains p x = Ok true ->
            exists q, reached q p /\ equals q x = Ok true.
Proof.
  induction p as [r v | r a d pp e IHa IHd] using U_slot_ind; intros x H.
  - exists (Atom r v). split; [constructor|].
    rewrite equals_unfold. exact H.
  - cbn [contains] in H.
    destruct (same _ x) eqn:Hs.
    { exists (Cons r a d pp e). split; [constructor | now apply equals_of_same]. }
    destruct (equals _ x) as [[|]|err] eqn:He; simpl in H; try discriminate.
    { exists (Cons r a d pp e). split; [constructor | exact He]. }
    destruct a as [a|]; [|discriminate]. destruct d as [d|]; [|discriminate].
    destruct (contains a x) as [[|]|err] eqn:Ha; simpl in H; try discriminate.
    + destruct (IHa a eq_refl x Ha) as (q & Hq & Hqx).
      exists q. split; [now apply reached_car | exact Hqx].
    + destruct (IHd d eq_refl x H) as (q & Hq & Hqx).
      exists q. split; [now apply reached_cdr | exact Hqx].
Qed.

Lemma contains_of_equals (q x : U) : equals q x = Ok true -> contains q x = Ok true.
Proof.
  intro H. destruct q as [r v | r a d pp e]; cbn [contains].
  - rewrite equals_unfold in H. exact H.
  - destruct (same _ x); [reflexivity|]. now rewrite H.
Qed.

Lemma contains_complete (x q p : U) :
  list_shaped x = true -> reached q p -> list_shaped p = true ->
  equals q x = Ok true -> contains p x = Ok true.
Proof.
  intros Lx Hr. induction Hr as [| r a d pp e _ IH | r a d pp e _ IH];
    intros Lp Hq.
  - now apply contains_of_equals.
  - pose proof Lp as Lp'. simpl in Lp'. apply andb_prop in Lp' as [La _].
    cbn [contains]. destruct (same _ x); [reflexivity|].
    destruct (equals_total _ x Lp Lx) as [[|] ->]; simpl; [reflexivity|].
    now rewrite (IH La Hq).
  - pose proof Lp as Lp'. simpl in Lp'. apply andb_prop in Lp' as [La Ld].
    apply andb_prop in Ld as [_ Ld].
    cbn [contains]. destruct (same _ x); [reflexivity|].
    destruct (equals_total _ x Lp Lx) as [[|] ->]; simpl; [reflexivity|].
    destruct (contains_total a x La Lx) as [[|] ->]; simpl; [reflexivity|].
    exact (IH Ld Hq).
Qed.

(** X10. [p.contains(x)] is true only if some node reached from [p] -- [p]
    itself, or a node found by descending through nodes that have both
    slots set -- is [equals] to [x]; on list-shaped handles it is true
    exactly then.  A node with a head and no rest, and a node without a
    head, are not descended into: such a node contains only what it is
    [equals] to. *)
Theorem contains_finds_exactly_the_reached_nodes :
  (forall p x, contains p x = Ok true ->
               exists q, reached q p /\ equals q x = Ok true)
  /\ (forall p x q,
        list_shaped p = true -> list_shaped x = true ->
        reached q p -> equals q x = Ok true -> contains p x = Ok true)
  /\ (forall r a d pp e x,
        a = None \/ d = None ->
        contains (Cons r a d pp e) x = Ok true ->
        equals (Cons r a d pp e) x = Ok true).
Proof.
  split; [exact contains_sound|].
  split; [intros p x q Lp Lx Hr Hq; now apply (contains_complete x q p)|].
  intros r a d pp e x Hslot H. cbn [contains] in H.
  destruct (same _ x) eqn:Hs; [now apply equals_of_same|].
  destruct (equals _ x) as [[|]|err]; simpl in H; try discriminate;
    [reflexivity|].
  destruct Hslot as [-> | ->]; [discriminate|].
  destruct a; discriminate.
Qed.

(** ** [equals] as elementwise equality, and as an equivalence *)

Lemma equal_cons_cons_true_elements (n : nat) :
  forall p q,
    size p <= n -> instanceof_Cons p = true -> instanceof_Cons q = true ->
    equal_cons_cons p q = Ok true ->
    exists xs ys,
      Cons_iterator p = Ok xs /\ Cons_iterator q = Ok ys
      /\ Forall2 (fun x y => equals x y = Ok true) xs ys.
Proof.
  induction n as [|m IH]; intros p q Hn Ip Iq Heq;
    [pose proof (size_pos p); lia|].
  pose proof (equal_cons_cons_true_is_cons p q Heq) as Hc.
  rewrite equal_cons_cons_unfold in Heq.
  rewrite (Cons_iterator_unfold p), (Cons_iterator_unfold q), <- Hc.
  destruct (is_cons p) eqn:Hp; rewrite <- Hc in Heq; simpl in Heq.
  - destruct (equals (Cons_car p) (Cons_car q)) as [[|]|err] eqn:Hcar;
      simpl in Heq; try discriminate.
    destruct (Cons_cdr p) as [p'|err] eqn:Ep; simpl in Heq; [|discriminate].
    destruct (Cons_cdr q) as [q'|err] eqn:Eq; simpl in Heq; [|discriminate].
    pose proof (Cons_cdr_size p p' Hp Ep).
    destruct (IH p' q' ltac:(lia) (Cons_cdr_instanceof p p' Ep)
                (Cons_cdr_instanceof q q' Eq) Heq) as (xs & ys & Hxs & Hys & HF).
    cbn [rbind]. rewrite Hxs, Hys. cbn [rbind].
    exists (Cons_car p :: xs), (Cons_car q :: ys).
    repeat split. now constructor.
  - exists [], []. repeat split. constructor.
Qed.

Lemma equal_cons_cons_of_elements (xs ys : list U) :
  Forall2 (fun x y => equals x y = Ok true) xs ys ->
  forall p q,
    instanceof_Cons p = true -> instanceof_Cons q = true ->
    Cons_iterator p = Ok xs -> Cons_iterator q = Ok ys ->
    equal_cons_cons p q = Ok true.
Proof.
  induction 1 as [|x y xs ys Hxy _ IH]; intros p q Ip Iq Hp Hq;
    rewrite equal_cons_cons_unfold.
  - pose proof (Cons_iterator_nil_inv p Ip Hp) as Np.
    pose proof (Cons_iterator_nil_inv q Iq Hq) as Nq.
    unfold is_cons. rewrite Ip, Iq, Np, Nq. simpl.
    now rewrite (equals_heads_unset p q Ip Iq Np Nq).
  - apply Cons_iterator_cons_inv in Hp as (Hcp & -> & p' & Ep & Hp').
    apply Cons_iterator_cons_inv in Hq as (Hcq & -> & q' & Eq & Hq').
    rewrite Hcp, Hcq, Hxy, Ep, Eq. simpl.
    apply IH; eauto using Cons_cdr_instanceof.
Qed.

(** X11. For two [Cons] objects whose iterations yield [xs] and [ys],
    [p.equals(q)] is true exactly when [xs] and [ys] have the same length
    and their elements are pairwise [equals]: addresses, source ranges and
    the way the chains end play no part. *)
Theorem equals_is_elementwise :
  forall (p q : U) (xs ys : list U),
    instanceof_Cons p = true -> instanceof_Cons q = true ->
    Cons_iterator p = Ok xs -> Cons_iterator q = Ok ys ->
    (equals p q = Ok true
     <-> Forall2 (fun x y => equals x y = Ok true) xs ys).
Proof.
  intros p q xs ys Ip Iq Hp Hq. split.
  - intro Heq. rewrite equals_unfold in Heq.
    destruct p as [|r a d pp e]; [discriminate|].
    destruct (same _ q) eqn:Hs.
    { apply same_eq in Hs. subst q. rewrite Hp in Hq. injection Hq as <-.
      apply equals_refl_all. }
    destruct (is_cons q) eqn:Hcq.
    + destruct (equal_cons_cons_true_elements _ (Cons r a d pp e) q (le_n _) eq_refl Iq Heq)
        as (xs' & ys' & Hp' & Hq' & HF).
      rewrite Hp in Hp'. rewrite Hq in Hq'.
      injection Hp' as <-. injection Hq' as <-. exact HF.
    + pose proof (instanceof_not_is_cons q Iq Hcq) as Nq.
      unfold is_atom, is_nil in Heq. rewrite Hcq, Nq in Heq.
      injection Heq as Np. destruct a as [a|]; [discriminate|].
      rewrite Cons_iterator_unfold in Hp, Hq. simpl in Hp.
      rewrite Hcq in Hq. injection Hp as <-. injection Hq as <-. constructor.
  - intro HF.
    pose proof (equal_cons_cons_of_elements xs ys HF p q Ip Iq Hp Hq) as Hloop.
    rewrite equals_unfold. destruct p as [|r a d pp e]; [discriminate|].
    destruct (same _ q); [reflexivity|].
    destruct (is_cons q) eqn:Hcq; [exact Hloop|].
    pose proof (instanceof_not_is_cons q Iq Hcq) as Nq.
    unfold is_atom, is_nil. rewrite Hcq, Nq. f_equal.
    rewrite Cons_iterator_unfold, Hcq in Hq. injection Hq as <-.
    inversion HF; subst.
    now apply Cons_iterator_nil_inv.
Qed.

(** An instance of X11: the list [Y] of [foo], [bar] against the list of
    two other atoms with the same values, built later with a source
    range. *)
Lemma equals_is_elementwise_witness :
  let q := chain (Some 0%Z) (Some 7%Z) 22 nil [Atom 20 "foo"; Atom 21 "bar"] in
  Cons_iterator listY = Ok [foo; bar]
  /\ Cons_iterator q = Ok [Atom 20 "foo"; Atom 21 "bar"]
  /\ same listY q = false
  /\ equals listY q = Ok true.
Proof.
  cbv zeta. split; [reflexivity|]. split; [reflexivity|].
  split; [reflexivity|].
  apply (equals_is_elementwise listY
           (chain (Some 0%Z) (Some 7%Z) 22 nil [Atom 20 "foo"; Atom 21 "bar"])
           [foo; bar] [Atom 20 "foo"; Atom 21 "bar"]
           eq_refl eq_refl eq_refl eq_refl).
  repeat constructor.
Defined.

Lemma Atom_equals_true_inv (a b : U) :
  instanceof_Atom a = true -> Atom_equals a b = true ->
  exists r v r', a = Atom r v /\ b = Atom r' v.
Proof.
  destruct a as [r v|]; [|discriminate]. intros _. unfold Atom_equals.
  destruct (same b (Atom r v)) eqn:Hs.
  - apply same_eq in Hs. subst. intros _. now exists r, v, r.
  - destruct b as [r' v'|]; [|discriminate].
    intro H. apply String.eqb_eq in H. subst. now exists r, v', r'.
Qed.

Lemma equals_Cons_true_inv (a b : U) :
  instanceof_Cons a = true -> equals a b = Ok true ->
  instanceof_Cons b = true
  /\ (a = b
      \/ (is_cons a = true /\ is_cons b = true /\ equal_cons_cons a b = Ok true)
      \/ (isNil a = true /\ isNil b = true)).
Proof.
  intros Ia H. rewrite equals_unfold in H.
  destruct a as [|r x d pp e]; [discriminate|].
  destruct (same _ b) eqn:Hs.
  { apply same_eq in Hs. subst. split; [reflexivity | now left]. }
  destruct (is_cons b) eqn:Hb.
  - split; [now apply is_cons_instanceof|]. right. left.
    split; [|split; [reflexivity | exact H]].
    now rewrite (equal_cons_cons_true_is_cons _ _ H).
  - unfold is_atom, is_nil in H. rewrite Hb in H.
    destruct (isNil b) eqn:Nb; [|discriminate].
    split; [destruct b; [discriminate | reflexivity]|].
    right. right. split; [now injection H | reflexivity].
Qed.

Lemma equals_trans_joint (n : nat) :
  forall a, size a <= n ->
    (forall b c,
        instanceof_Cons a = true -> instanceof_Cons b = true ->
        instanceof_Cons c = true ->
        equal_cons_cons a b = Ok true -> equal_cons_cons b c = Ok true ->
        equal_cons_cons a c = Ok true)
    /\ (forall b c, equals a b = Ok true -> equals b c = Ok true ->
                    equals a c = Ok true).
Proof.
  induction n as [|m IH]; intros a Hn; [pose proof (size_pos a); lia|].
  assert (Hloop : forall b c,
             instanceof_Cons a = true -> instanceof_Cons b = true ->
             instanceof_Cons c = true ->
             equal_cons_cons a b = Ok true -> equal_cons_cons b c = Ok true ->
             equal_cons_cons a c = Ok true).
  { intros b c Ia Ib Ic Hab Hbc.
    pose proof (equal_cons_cons_true_is_cons a b Hab) as Cab.
    pose proof (equal_cons_cons_true_is_cons b c Hbc) as Cbc.
    rewrite equal_cons_cons_unfold in Hab, Hbc. rewrite equal_cons_cons_unfold.
    rewrite <- Cbc, <- Cab in *.
    destruct (is_cons a) eqn:Ha; simpl in *.
    - destruct (equals (Cons_car a) (Cons_car b)) as [[|]|] eqn:E1;
        simpl in Hab; try discriminate.
      destruct (equals (Cons_car b) (Cons_car c)) as [[|]|] eqn:E2;
        simpl in Hbc; try discriminate.
      pose proof (Cons_car_size a Ha).
      rewrite (proj2 (IH (Cons_car a) ltac:(lia)) _ _ E1 E2). simpl.
      destruct (Cons_cdr a) as [a'|] eqn:Ea; simpl in *; [|discriminate].
      destruct (Cons_cdr b) as [b'|] eqn:Eb; simpl in *; [|discriminate].
      destruct (Cons_cdr c) as [c'|] eqn:Ec; simpl in *; [|discriminate].
      pose proof (Cons_cdr_size a a' Ha Ea).
      apply (proj1 (IH a' ltac:(lia)) b' c');
        eauto using Cons_cdr_instanceof.
    - rewrite (equals_heads_unset a c Ia Ic); [reflexivity | |];
        apply instanceof_not_is_cons; auto; congruence. }
  split; [exact Hloop|].
  intros b c Hab Hbc.
  destruct a as [r v | r x d pp e].
  - rewrite equals_unfold in Hab. injection Hab as Hab.
    apply Atom_equals_true_inv in Hab; [|reflexivity].
    destruct Hab as (r1 & v1 & r2 & Ea & ->). injection Ea as -> ->.
    rewrite equals_unfold in Hbc. injection Hbc as Hbc.
    apply Atom_equals_true_inv in Hbc; [|reflexivity].
    destruct Hbc as (r3 & v3 & r4 & Eb & ->). injection Eb as -> ->.
    rewrite equals_unfold. f_equal. unfold Atom_equals.
    destruct (same _ _); [reflexivity | apply String.eqb_refl].
  - apply equals_Cons_true_inv in Hab as Hab'; [|reflexivity].
    destruct Hab' as [Ib Hab'].
    destruct (equals_Cons_true_inv b c Ib Hbc) as [Ic Hbc'].
    destruct Hab' as [<- | Hab']; [exact Hbc|].
    destruct Hbc' as [<- | Hbc']; [exact Hab|].
    destruct Hab' as [(Ca & Cb & Hl1) | (Na & Nb)],
             Hbc' as [(Cb' & Cc & Hl2) | (Nb' & Nc)].
    + rewrite equals_unfold. destruct (same _ c); [reflexivity|].
      rewrite Cc. now apply (Hloop b c).
    + apply is_cons_isNil in Cb. congruence.
    + apply is_cons_isNil in Cb'. congruence.
    + now apply equals_heads_unset.
Qed.

(** X12. [equals] is transitive on all handles: if [a.equals(b)] and
    [b.equals(c)] are true then so is [a.equals(c)].  With reflexivity and
    symmetry it is an equivalence on handles. *)
Theorem equals_transitive :
  forall a b c : U,
    equals a b = Ok true -> equals b c = Ok true -> equals a c = Ok true.
Proof.
  intros a b c. exact (proj2 (equals_trans_joint (size a) a (le_n _)) b c).
Qed.

(** An instance of X12: three lists of one atom of value [foo] each. *)
Lemma equals_transitive_witness :
  let b := chain None None 21 nil [Atom 20 "foo"] in
  let c := chain None None 23 nil [Atom 22 "foo"] in
  equals listX b = Ok true /\ equals b c = Ok true /\ equals listX c = Ok true.
Proof.
  cbv zeta. split; [reflexivity|]. split; [reflexivity|].
  exact (equals_transitive listX
           (chain None None 21 nil [Atom 20 "foo"])
           (chain None None 23 nil [Atom 22 "foo"]) eq_refl eq_refl).
Defined.

(** ** [map] composes *)

Lemma equals_of_elements (p q : U) (xs ys : list U) :
  instanceof_Cons p = true -> instanceof_Cons q = true ->
  Cons_iterator p = Ok xs -> Cons_iterator q = Ok ys ->
  Forall2 (fun x y => equals x y = Ok true) xs ys ->
  equals p q = Ok true.
Proof.
  intros Ip Iq Hp Hq HF.
  pose proof (equal_cons_cons_of_elements xs ys HF p q Ip Iq Hp Hq) as Hloop.
  rewrite equals_unfold. destruct p as [|r a d pp e]; [discriminate|].
  destruct (same _ q); [reflexivity|].
  destruct (is_cons q) eqn:Hcq; [exact Hloop|].
  pose proof (instanceof_not_is_cons q Iq Hcq) as Nq.
  unfold is_atom, is_nil. rewrite Hcq, Nq. f_equal.
  rewrite Cons_iterator_unfold, Hcq in Hq. injection Hq as <-.
  inversion HF; subst. now apply Cons_iterator_nil_inv.
Qed.

Lemma Cons_map_pure (g : U -> U) (p : U) (xs : list U) (s : alloc) :
  instanceof_Cons p = true -> Cons_iterator p = Ok xs ->
  exists q,
    Cons_map (fun a => ret (g a)) p s = (Ok q, s + List.length xs)
    /\ instanceof_Cons q = true
    /\ Cons_iterator q = Ok (List.map g xs).
Proof.
  intros Ip Hp.
  destruct (Cons_map_elements (fun a => ret (g a)) xs p (List.map g xs) s s
              Ip Hp (mapM_pure g xs s)) as (q & Hq & Iq & Hit & _).
  now exists q.
Qed.

(** X13. For functions [g1], [g2] that allocate nothing and a [Cons] object
    [p] whose iteration yields [xs]: [p.map(g1).map(g2)] and
    [p.map(x => g2(g1(x)))] both yield [g2(g1(x))] for each [x] of [xs] in
    order, and are [equals]; [p.map(x => x)] yields [xs] itself and is
    [equals] to [p].  Each [map] allocates one node per element. *)
Theorem map_composes :
  forall (g1 g2 : U -> U) (p : U) (xs : list U) (s : alloc),
    instanceof_Cons p = true ->
    Cons_iterator p = Ok xs ->
    let n := List.length xs in
    exists q1 q2 q12 q0,
      Cons_map (fun a => ret (g1 a)) p s = (Ok q1, s + n)
      /\ Cons_map (fun a => ret (g2 a)) q1 (s + n) = (Ok q2, s + n + n)
      /\ Cons_map (fun a => ret (g2 (g1 a))) p (s + n + n)
         = (Ok q12, s + n + n + n)
      /\ Cons_map (fun a => ret a) p (s + n + n + n)
         = (Ok q0, s + n + n + n + n)
      /\ Cons_iterator q2 = Ok (List.map (fun x => g2 (g1 x)) xs)
      /\ Cons_iterator q12 = Ok (List.map (fun x => g2 (g1 x)) xs)
      /\ equals q2 q12 = Ok true
      /\ Cons_iterator q0 = Ok xs
      /\ equals q0 p = Ok true.
Proof.
  intros g1 g2 p xs s Ip Hp n.
  destruct (Cons_map_pure g1 p xs s Ip Hp) as (q1 & H1 & I1 & It1).
  destruct (Cons_map_pure g2 q1 (List.map g1 xs) (s + n) I1 It1)
    as (q2 & H2 & I2 & It2).
  destruct (Cons_map_pure (fun x => g2 (g1 x)) p xs (s + n + n) Ip Hp)
    as (q12 & H12 & I12 & It12).
  destruct (Cons_map_pure (fun x => x) p xs (s + n + n + n) Ip Hp)
    as (q0 & H0 & I0 & It0).
  rewrite length_map in H2. rewrite map_map in It2. rewrite map_id in It0.
  exists q1, q2, q12, q0.
  repeat (split; [assumption|]).
  split; [|split; [assumption|]].
  - apply (equals_of_elements q2 q12 _ _ I2 I12 It2 It12), equals_refl_all.
  - apply (equals_of_elements q0 p _ _ I0 Ip It0 Hp), equals_refl_all.
Qed.

(** An instance of X13: the list of [foo], [bar] mapped with two constant
    functions. *)
Lemma map_composes_witness :
  instanceof_Cons listY = true
  /\ Cons_iterator listY = Ok [foo; bar]
  /\ exists q2 q12,
      Cons_iterator q2 = Ok [baz; baz] /\ equals q2 q12 = Ok true.
Proof.
  split; [reflexivity|]. split; [reflexivity|].
  destruct (map_composes (fun _ => foo) (fun _ => baz) listY [foo; bar] 12
              eq_refl eq_refl)
    as (q1 & q2 & q12 & q0 & _ & _ & _ & _ & H2 & _ & Heq & _).
  exists q2, q12. split; [exact H2 | exact Heq].
Defined.

(** ** The second copy: the sentinel by identity *)

Lemma identity_is_nil (e : U) (k : nat) :
  IdentityNil.is_nil_fuel (5 + k) e = Ok (same e nil)
  /\ IdentityNil.is_cons_fuel (6 + k) e
     = Ok (instanceof_Cons e && negb (same e nil)).
Proof.
  assert (Hnil : forall j, IdentityNil.is_nil_fuel (S (S (S (S (S j))))) e
                           = Ok (same e nil)).
  { intro j. cbn [IdentityNil.is_nil_fuel IdentityNil.equals_fuel].
    destruct e as [r v | r a d p e].
    - reflexivity.
    - destruct (same _ nil); reflexivity. }
  cbn [Nat.add]. split; [apply Hnil|].
  cbn [IdentityNil.is_cons_fuel]. rewrite Hnil.
  destruct e; reflexivity.
Qed.

(** X14. In the second copy, for every budget of at least 6 steps,
    [is_nil(x)] is true exactly when [x] is the sentinel object itself, and
    [is_cons(x)] exactly when [x] is a [Cons] object other than the
    sentinel, whether or not it has a head. *)
Theorem identity_copy_is_nil_is_cons :
  forall (x : U) (k : nat),
    IdentityNil.is_nil_fuel (6 + k) x = Ok (same x nil)
    /\ IdentityNil.is_cons_fuel (6 + k) x
       = Ok (instanceof_Cons x && negb (same x nil))
    /\ (IdentityNil.is_nil_fuel (6 + k) x = Ok true <-> x = nil)
    /\ (IdentityNil.is_cons_fuel (6 + k) x = Ok true
        <-> instanceof_Cons x = true /\ x <> nil).
Proof.
  intros x k.
  pose proof (proj1 (identity_is_nil x (S k))) as Hn.
  pose proof (proj2 (identity_is_nil x k)) as Hc.
  change (5 + S k) with (6 + k) in Hn.
  rewrite Hn, Hc. split; [reflexivity|]. split; [reflexivity|].
  split.
  - split; [intros [= H]; now apply same_eq | intros ->; now rewrite same_refl].
  - split.
    + intros [= H]. apply andb_prop in H as [Hi Hs]. split; [exact Hi|].
      intros ->. now rewrite same_refl in Hs.
    + intros [Hi Hne]. now rewrite Hi, (same_neq x nil Hne).
Qed.

(** ** The two copies agree where the sentinel is the only node without a head *)

Lemma identity_is_cons_ge (e : U) (k : nat) :
  6 <= k ->
  IdentityNil.is_cons_fuel k e = Ok (instanceof_Cons e && negb (same e nil)).
Proof.
  intro H. replace k with (6 + (k - 6)) by lia. apply identity_is_nil.
Qed.

Lemma same_head_nil (r : alloc) (x : U) (d : option U) (p e : option Z) :
  same (Cons r (Some x) d p e) nil = false.
Proof. simpl. now destruct (Nat.eqb r 0). Qed.

Lemma canonical_same_nil (e : U) : canonical e = true -> same e nil = isNil e.
Proof.
  destruct e as [|r [x|] d p e]; [reflexivity | |].
  - intros _. apply same_head_nil.
  - cbn [canonical isNil]. auto.
Qed.

Lemma canonical_is_cons (e : U) :
  canonical e = true -> instanceof_Cons e && negb (same e nil) = is_cons e.
Proof.
  intro H. rewrite (canonical_same_nil e H). unfold is_cons.
  now destruct (instanceof_Cons e).
Qed.

Lemma identity_is_cons_canonical (e : U) (k : nat) :
  6 <= k -> canonical e = true -> IdentityNil.is_cons_fuel k e = Ok (is_cons e).
Proof.
  intros Hk He. now rewrite identity_is_cons_ge, canonical_is_cons.
Qed.

Lemma canonical_car (u : U) : canonical u = true -> canonical (Cons_car u) = true.
Proof.
  destruct u as [|r [x|] d p e]; try reflexivity.
  cbn [canonical]. intro H. now apply andb_prop in H as [H _].
Qed.

Lemma canonical_cdr (u d : U) :
  canonical u = true -> Cons_cdr u = Ok d -> canonical d = true.
Proof.
  unfold Cons_cdr. destruct u as [|r [x|] [y|] p e]; cbn [cdr_slot canonical].
  - intros _ [= <-]. reflexivity.
  - intro H. apply andb_prop in H as [_ H].
    destruct (instanceof_Cons y); [|discriminate]. now intros [= <-].
  - intros _ [= <-]. reflexivity.
  - intro H. apply same_eq in H. discriminate.
  - intros _ [= <-]. reflexivity.
Qed.

Lemma canonical_chain (p e : option Z) (s : alloc) (items : list U) :
  Forall (fun x => canonical x = true) items ->
  canonical (chain p e s nil items) = true.
Proof.
  induction 1 as [|x rest Hx _ IH]; [reflexivity|].
  cbn [chain canonical]. now rewrite Hx, IH.
Qed.

Lemma identity_equals_flat (a b : U) (n : nat) :
  canonical a = true -> canonical b = true -> is_cons b = false -> 7 <= n ->
  IdentityNil.equals_fuel n a b = equals a b.
Proof.
  intros Ca Cb Hb Hn. destruct n as [|k]; [lia|].
  rewrite equals_unfold. cbn [IdentityNil.equals_fuel].
  destruct a as [r v | r x d p e]; [reflexivity|].
  destruct (same _ b) eqn:Hs; [reflexivity|].
  rewrite (identity_is_cons_canonical b k ltac:(lia) Cb), Hb. simpl.
  unfold is_atom, is_nil. rewrite Hb.
  destruct (isNil b) eqn:Nb; [|reflexivity].
  f_equal. symmetry.
  destruct x as [x|]; [reflexivity|].
  cbn [canonical] in Ca. apply same_eq in Ca.
  rewrite <- (canonical_same_nil b Cb) in Nb. apply same_eq in Nb.
  subst b. rewrite Ca in Hs. discriminate.
Qed.

Lemma identity_equals_agrees_joint (n : nat) :
  (forall a b,
      canonical a = true -> canonical b = true -> 2 * size a + 8 <= n ->
      IdentityNil.equals_fuel n a b = equals a b)
  /\ (forall p1 p2,
        canonical p1 = true -> canonical p2 = true -> 2 * size p1 + 7 <= n ->
        IdentityNil.equal_cons_cons_fuel n p1 p2 = equal_cons_cons p1 p2).
Proof.
  induction n as [|k [IHe IHl]]; [split; intros; lia|].
  assert (Hloop : forall p1 p2,
             canonical p1 = true -> canonical p2 = true ->
             2 * size p1 + 7 <= S k ->
             IdentityNil.equal_cons_cons_fuel (S k) p1 p2
             = equal_cons_cons p1 p2).
  { intros p1 p2 C1 C2 Hk. pose proof (size_pos p1).
    rewrite equal_cons_cons_unfold. cbn [IdentityNil.equal_cons_cons_fuel].
    rewrite (identity_is_cons_canonical p1 k ltac:(lia) C1). cbn [rbind].
    rewrite (identity_is_cons_canonical p2 k ltac:(lia) C2).
    destruct (is_cons p1) eqn:H1; cbn [rbind andb].
    - destruct (is_cons p2) eqn:H2; [|reflexivity].
      pose proof (Cons_car_size p1 H1).
      rewrite (IHe (Cons_car p1) (Cons_car p2)
                 (canonical_car p1 C1) (canonical_car p2 C2)) by lia.
      destruct (equals (Cons_car p1) (Cons_car p2)) as [[|]|]; simpl;
        try reflexivity.
      destruct (Cons_cdr p1) as [p1'|] eqn:E1; simpl; [|reflexivity].
      destruct (Cons_cdr p2) as [p2'|] eqn:E2; simpl; [|reflexivity].
      pose proof (Cons_cdr_size p1 p1' H1 E1).
      apply IHl; eauto using canonical_cdr. lia.
    - destruct (is_cons p2) eqn:H2; [reflexivity|].
      now rewrite (identity_equals_flat p1 p2 k C1 C2 H2) by lia. }
  split; [|exact Hloop].
  intros a b Ca Cb Hk. pose proof (size_pos a).
  destruct (is_cons b) eqn:Hb.
  - rewrite equals_unfold. cbn [IdentityNil.equals_fuel].
    destruct a as [r v | r x d p e]; [reflexivity|].
    destruct (same _ b); [reflexivity|].
    rewrite (identity_is_cons_canonical b k ltac:(lia) Cb), Hb. simpl.
    apply IHl; auto. lia.
  - apply identity_equals_flat; auto. lia.
Qed.

(** X15. On handles in which the sentinel is the only node without a head --
    the atoms and every list that [cons] and [items_to_cons] build from
    such handles -- the [equals] of the second copy returns, for every
    budget of at least [2 * size + 8] steps, what the [equals] of the first
    copy returns, errors included. *)
Theorem identity_copy_equals_agrees :
  forall (a b : U) (n : nat),
    canonical a = true -> canonical b = true ->
    IdentityNil.equals_fuel (2 * size a + 8 + n) a b = equals a b.
Proof.
  intros a b n Ca Cb.
  apply (proj1 (identity_equals_agrees_joint (2 * size a + 8 + n))); auto. lia.
Qed.

(** An instance of X15: the lists [X] and [Y] of the test suite. *)
Lemma identity_copy_equals_agrees_witness :
  canonical listX = true /\ canonical listY = true
  /\ IdentityNil.equals_fuel (2 * size listX + 8 + 0) listX listY
     = equals listX listY.
Proof.
  split; [reflexivity|]. split; [reflexivity|].
  exact (identity_copy_equals_agrees listX listY 0 eq_refl eq_refl).
Defined.

Lemma identity_length_agrees (n : nat) :
  forall p, canonical p = true -> size p + 6 <= n ->
            IdentityNilList.length_fuel n p = Cons_length p.
Proof.
  induction n as [|k IH]; intros p Cp Hn; [lia|].
  pose proof (size_pos p).
  rewrite Cons_length_unfold. cbn [IdentityNilList.length_fuel].
  rewrite (canonical_same_nil p Cp).
  destruct (isNil p); [reflexivity|]. cbn [negb].
  unfold Cons_argList.
  destruct (Cons_cdr p) as [b|] eqn:Eb; simpl; [|reflexivity].
  pose proof (canonical_cdr p b Cp Eb) as Cb.
  rewrite (identity_is_cons_canonical b k ltac:(lia) Cb). simpl.
  destruct (is_cons b) eqn:Hb; [|reflexivity].
  pose proof (Cons_cdr_is_cons_size p b Eb Hb).
  rewrite (IH b Cb) by lia. reflexivity.
Qed.

Lemma identity_item_agrees (n : nat) :
  forall p i, canonical p = true -> size p + 6 <= n ->
              IdentityNilList.item_fuel n p i = Cons_item p i.
Proof.
  induction n as [|k IH]; intros p i Cp Hn; [lia|].
  pose proof (size_pos p).
  rewrite Cons_item_unfold. cbn [IdentityNilList.item_fuel].
  rewrite (canonical_same_nil p Cp).
  destruct ((0 <=? i)%Z && negb (isNil p)); [|reflexivity].
  destruct (i =? 0)%Z; [reflexivity|].
  unfold Cons_argList.
  destruct (Cons_cdr p) as [b|] eqn:Eb; simpl; [|reflexivity].
  pose proof (canonical_cdr p b Cp Eb) as Cb.
  rewrite (identity_is_cons_canonical b k ltac:(lia) Cb). simpl.
  destruct (is_cons b) eqn:Hb; [|reflexivity].
  pose proof (Cons_cdr_is_cons_size p b Eb Hb).
  apply IH; [exact Cb | lia].
Qed.

Lemma identity_iterator_agrees (n : nat) :
  forall u, canonical u = true -> size u + 6 <= n ->
            IdentityNilList.iterator_fuel n u = Cons_iterator u.
Proof.
  induction n as [|k IH]; intros u Cu Hn; [lia|].
  rewrite Cons_iterator_unfold. cbn [IdentityNilList.iterator_fuel].
  pose proof (size_pos u).
  rewrite (identity_is_cons_canonical u k ltac:(lia) Cu). simpl.
  destruct (is_cons u) eqn:Hu; [|reflexivity].
  destruct (Cons_cdr u) as [d|] eqn:Ed; simpl; [|reflexivity].
  pose proof (Cons_cdr_size u d Hu Ed).
  rewrite (IH d (canonical_cdr u d Cu Ed)) by lia. reflexivity.
Qed.

(** X16. On a handle in which the sentinel is the only node without a head,
    [length], [item], the iterator, [tail] and [is_singleton] of the second
    copy return, for every budget of at least [size + 6] steps, what those
    of the first copy return, errors included. *)
Theorem identity_copy_list_operations_agree :
  forall (p : U) (n : nat),
    canonical p = true ->
    IdentityNilList.length_fuel (size p + 6 + n) p = Cons_length p
    /\ (forall i, IdentityNilList.item_fuel (size p + 6 + n) p i = Cons_item p i)
    /\ IdentityNilList.iterator_fuel (size p + 6 + n) p = Cons_iterator p
    /\ IdentityNilList.tail_fuel (size p + 6 + n) p = Cons_tail p
    /\ IdentityNilList.is_singleton p = is_singleton p.
Proof.
  intros p n Cp.
  split; [apply identity_length_agrees; [exact Cp | lia]|].
  split; [intro i; apply identity_item_agrees; [exact Cp | lia]|].
  split; [apply identity_iterator_agrees; [exact Cp | lia]|].
  split.
  - replace (size p + 6 + n) with (S (size p + 5 + n)) by lia.
    cbn [IdentityNilList.tail_fuel]. unfold Cons_tail.
    rewrite (canonical_same_nil p Cp).
    destruct (isNil p) eqn:Np; [reflexivity|]. cbn [negb].
    destruct p as [|r [x|] [d|] pp e]; try reflexivity; try discriminate.
    cbn [cdr_slot]. cbn [canonical] in Cp.
    apply andb_prop in Cp as [_ Cd].
    pose proof (size_pos x).
    assert (Hsz : size d + 6 <= size (Cons r (Some x) (Some d) pp e) + 5 + n)
      by (simpl; lia).
    rewrite (identity_is_cons_canonical d
               (size (Cons r (Some x) (Some d) pp e) + 5 + n))
      by (first [exact Cd | simpl; lia]).
    cbn [rbind].
    destruct (is_cons d); [|reflexivity].
    now apply identity_iterator_agrees.
  - unfold IdentityNilList.is_singleton, is_singleton.
    rewrite (same_sym nil p), (canonical_same_nil p Cp).
    destruct (isNil p); [reflexivity|].
    destruct (Cons_cdr p) as [d|] eqn:Ed; cbn [rbind]; [|reflexivity].
    now rewrite (same_sym nil d), (canonical_same_nil d (canonical_cdr p d Cp Ed)).
Qed.

(** An instance of X16: the list of [foo], [bar], [baz]. *)
Lemma identity_copy_list_operations_agree_witness :
  canonical listW = true
  /\ IdentityNilList.length_fuel (size listW + 6 + 0) listW = Ok 3
  /\ IdentityNilList.tail_fuel (size listW + 6 + 0) listW = Ok [bar; baz].
Proof.
  split; [reflexivity|].
  destruct (identity_copy_list_operations_agree listW 0 eq_refl)
    as (Hl & _ & _ & Ht & _).
  split; [exact Hl | exact Ht].
Defined.

(** X17. The second copy takes a [Cons] object without head and rest that
    is not the sentinel for a one-element list holding the sentinel:
    [length] is 1, the iteration yields the sentinel, [item(0)] returns the
    sentinel, [tail()] returns the empty collection and [is_singleton] is
    true.  The first copy takes it for the empty list: [length] is 0, the
    iteration yields nothing, [item(0)] and [tail()] throw, [is_singleton]
    is false. *)
Theorem identity_copy_headless_is_a_singleton :
  forall (r : alloc) (pp e : option Z) (n : nat),
    Cons r None None pp e <> nil ->
    (IdentityNilList.length_fuel (7 + n) (Cons r None None pp e) = Ok 1
     /\ IdentityNilList.iterator_fuel (8 + n) (Cons r None None pp e) = Ok [nil]
     /\ IdentityNilList.item_fuel (1 + n) (Cons r None None pp e) 0 = Ok nil
     /\ IdentityNilList.tail_fuel (1 + n) (Cons r None None pp e) = Ok []
     /\ IdentityNilList.is_singleton (Cons r None None pp e) = Ok true)
    /\ (Cons_length (Cons r None None pp e) = Ok 0
        /\ Cons_iterator (Cons r None None pp e) = Ok []
        /\ Cons_item (Cons r None None pp e) 0 = Throw IndexError
        /\ Cons_tail (Cons r None None pp e) = Throw EmptyListError
        /\ is_singleton (Cons r None None pp e) = Ok false).
Proof.
  intros r pp e n Hne. set (h := Cons r None None pp e) in *.
  assert (Hs : same h nil = false) by now apply same_neq.
  assert (Hs' : same nil h = false) by (rewrite same_sym; exact Hs).
  assert (Hc : forall k, IdentityNil.is_cons_fuel (S (S (S (S (S (S k)))))) h
                         = Ok true).
  { intro k. change (S (S (S (S (S (S k)))))) with (6 + k).
    rewrite (proj2 (identity_is_nil h k)), Hs. reflexivity. }
  assert (Hcn : forall k, IdentityNil.is_cons_fuel (S (S (S (S (S (S k)))))) nil
                          = Ok false)
    by (intro k; reflexivity).
  assert (Hcdr : Cons_cdr h = Ok nil) by reflexivity.
  cbn [Nat.add].
  split; [|repeat split].
  split.
  { cbn [IdentityNilList.length_fuel].
    rewrite Hs. cbn [negb]. unfold Cons_argList.
    rewrite Hcdr. cbn [rbind]. now rewrite Hcn. }
  split.
  { cbn [IdentityNilList.iterator_fuel].
    rewrite Hc. cbn [rbind]. rewrite Hcdr. cbn [rbind]. now rewrite Hcn. }
  split.
  { cbn [IdentityNilList.item_fuel]. now rewrite Hs. }
  split.
  { cbn [IdentityNilList.tail_fuel]. now rewrite Hs. }
  unfold IdentityNilList.is_singleton. rewrite Hs', Hcdr. reflexivity.
Qed.

(** An instance of X17: the node [new Cons(void 0, void 0, 23, 26)] of the
    test suite, with a budget of 8 steps. *)
Lemma identity_copy_headless_is_a_singleton_witness :
  Cons 12 None None (Some 23%Z) (Some 26%Z) <> nil
  /\ IdentityNilList.length_fuel (7 + 1) (Cons 12 None None (Some 23%Z) (Some 26%Z))
     = Ok 1
  /\ Cons_length (Cons 12 None None (Some 23%Z) (Some 26%Z)) = Ok 0.
Proof.
  assert (Hne : Cons 12 None None (Some 23%Z) (Some 26%Z) <> nil)
    by discriminate.
  split; [exact Hne|].
  destruct (identity_copy_headless_is_a_singleton
              12 (Some 23%Z) (Some 26%Z) 1 Hne) as [(Hl & _) (Hl' & _)].
  split; [exact Hl | exact Hl'].
Defined.

(** ** Kinds of handles *)

(** X18. Every handle is of exactly one kind: [is_atom], [is_cons] or
    [is_nil].  [is_cons] holds exactly for the [Cons] objects with a head,
    which answer [isCons()] with true and are named ['Cons']; [is_nil]
    exactly for the [Cons] objects without a head, named ['Nil']; [is_atom]
    exactly for the objects that are no [Cons]. *)
Theorem handle_kinds_partition :
  forall x : U,
    (is_atom x = true /\ is_cons x = false /\ is_nil x = false
     \/ is_atom x = false /\ is_cons x = true /\ is_nil x = false
     \/ is_atom x = false /\ is_cons x = false /\ is_nil x = true)
    /\ is_atom x = negb (instanceof_Cons x)
    /\ is_cons x = isCons x
    /\ is_nil x = isNil x
    /\ (is_cons x = true <-> name x = "Cons"%string)
    /\ (is_nil x = true <-> name x = "Nil"%string)
    /\ (is_cons x = true <-> exists r a d p e, x = Cons r (Some a) d p e)
    /\ (is_nil x = true <-> exists r d p e, x = Cons r None d p e).
Proof.
  intros x.
  assert (Hkind :
            is_atom x = true /\ is_cons x = false /\ is_nil x = false
            \/ is_atom x = false /\ is_cons x = true /\ is_nil x = false
            \/ is_atom x = false /\ is_cons x = false /\ is_nil x = true).
  { destruct x as [r v | r [a|] d p e];
      [left | right; left | right; right]; repeat split. }
  split; [exact Hkind|]. clear Hkind.
  destruct x as [r v | r [a|] d p e]; cbn.
  - do 3 (split; [reflexivity|]).
    split; [split; discriminate|]. split; [split; discriminate|].
    split; (split; [discriminate|]).
    + intros (? & ? & ? & ? & ? & H). discriminate.
    + intros (? & ? & ? & ? & H). discriminate.
  - do 3 (split; [reflexivity|]).
    split; [split; reflexivity|]. split; [split; discriminate|].
    split; [split; [intros _; now exists r, a, d, p, e | reflexivity]|].
    split; [discriminate|].
    intros (? & ? & ? & ? & H). discriminate.
  - do 3 (split; [reflexivity|]).
    split; [split; discriminate|]. split; [split; reflexivity|].
    split; [split; [discriminate|]|].
    + intros (? & ? & ? & ? & ? & H). discriminate.
    + split; [intros _; now exists r, d, p, e | reflexivity].
Qed.

(** ** [items_to_cons] folds [cons] *)

(** X19. The list that [items_to_cons] builds from [a, x1 .. xn] and the
    node that [cons] builds from [a] and the list of [x1 .. xn] yield the
    same elements and are [equals]; they are different objects when built
    one after the other. *)
Theorem items_to_cons_is_cons_of_rest :
  forall (a : U) (xs : list U) (s : alloc),
    exists c d c',
      items_to_cons (a :: xs) s = (Ok c, s + S (List.length xs))
      /\ items_to_cons xs (s + S (List.length xs))
         = (Ok d, s + S (List.length xs) + List.length xs)
      /\ cons a d None None (s + S (List.length xs) + List.length xs)
         = (Ok c', S (s + S (List.length xs) + List.length xs))
      /\ Cons_iterator c = Ok (a :: xs)
      /\ Cons_iterator c' = Ok (a :: xs)
      /\ equals c c' = Ok true
      /\ same c c' = false.
Proof.
  intros a xs s.
  set (s1 := s + S (List.length xs)). set (s2 := s1 + List.length xs).
  exists (chain None None s nil (a :: xs)), (chain None None s1 nil xs),
         (Cons s2 (Some a) (Some (chain None None s1 nil xs)) None None).
  rewrite !items_to_cons_chain.
  assert (Hit : Cons_iterator
                  (Cons s2 (Some a) (Some (chain None None s1 nil xs)) None None)
                = Ok (a :: xs)).
  { rewrite Cons_iterator_unfold.
    change (is_cons (Cons s2 (Some a) _ None None)) with true. cbv iota.
    unfold Cons_cdr. cbn [cdr_slot]. rewrite chain_instanceof. cbn [rbind].
    now rewrite chain_iterator. }
  split; [reflexivity|]. split; [reflexivity|].
  split; [unfold cons; now rewrite chain_instanceof|].
  split; [apply chain_iterator|]. split; [exact Hit|].
  split.
  - apply (equals_of_elements _ _ (a :: xs) (a :: xs));
      auto using chain_instanceof, chain_iterator, equals_refl_all.
  - apply same_neq. cbn [chain]. intros [= H _]. unfold s2, s1 in H. lia.
Qed.

(** ** [contains] and equal needles *)

(** X20. On list-shaped handles [contains] takes its needle up to
    [equals]: if [x.equals(y)] is true then [p.contains(x)] and
    [p.contains(y)] return the same boolean. *)
Theorem contains_respects_equal_needles :
  forall p x y : U,
    list_shaped p = true -> list_shaped x = true -> list_shaped y = true ->
    equals x y = Ok true ->
    contains p x = contains p y.
Proof.
  intros p x y Lp Lx Ly Hxy.
  assert (Hyx : equals y x = Ok true) by (rewrite equals_sym; exact Hxy).
  assert (Hmove : forall u v, list_shaped v = true -> equals u v = Ok true ->
                              contains p u = Ok true -> contains p v = Ok true).
  { intros u v Lv Huv Hu.
    destruct (contains_sound p u Hu) as (q & Hq & Hqu).
    apply (contains_complete v q p Lv Hq Lp).
    exact (proj2 (equals_trans_joint (size q) q (le_n _)) u v Hqu Huv). }
  destruct (contains_total p x Lp Lx) as [[|] Hx],
           (contains_total p y Lp Ly) as [[|] Hy]; rewrite Hx, Hy;
    try reflexivity.
  - rewrite (Hmove x y Ly Hxy Hx) in Hy. discriminate.
  - rewrite (Hmove y x Lx Hyx Hy) in Hx. discriminate.
Qed.

(** An instance of X20: the list [Z] of the list [X] and [bar] contains
    [foo] and another atom of value [foo] alike. *)
Lemma contains_respects_equal_needles_witness :
  list_shaped listZ = true /\ list_shaped foo = true
  /\ equals foo (Atom 20 "foo") = Ok true
  /\ contains listZ foo = contains listZ (Atom 20 "foo").
Proof.
  split; [reflexivity|]. split; [reflexivity|]. split; [reflexivity|].
  exact (contains_respects_equal_needles listZ foo (Atom 20 "foo")
           eq_refl eq_refl eq_refl eq_refl).
Defined.
